(** * Cdhash computation (cdhash.c): a shallow embedding and its properties

    The program parses an untrusted in-memory Mach-O image, finds the
    code-signature blob, selects the best-ranked code directory and hashes it.

    The embedding keeps the shape of the C code:
    - the caller's buffer is a [buffer]: a base address and its bytes; every
      read goes through [load_bytes], which answers [Fault] when any byte of
      the read lies outside the buffer;
    - pointers are 64-bit addresses ([Z] with the wrap-around of pointer
      arithmetic written out in [ptr_add]); [NULL] is address 0;
    - a function that can read returns an [outcome]; the two loops whose exit
      depends on the data ([macho_validate], [macho_find_load_command]) take
      fuel and answer [OutOfFuel] when it is used up;
    - the functions that receive the [cdhash] output pointer thread the log of
      the writes made through it. *)

From Stdlib Require Import ZArith List Lia Bool.
From Stdlib Require Import Strings.Byte.
From Stdlib Require Import Sorting.Permutation.
Import ListNotations.
Local Open Scope Z_scope.

(** ** Outcomes of a run *)

Inductive outcome (A : Type) : Type :=
| Ret (a : A)      (* the function returned [a] *)
| Fault            (* a read touched a byte outside the buffer *)
| OutOfFuel.       (* the loop had not finished when the fuel ran out *)

Arguments Ret {A} a.
Arguments Fault {A}.
Arguments OutOfFuel {A}.

Definition obind {A B : Type} (o : outcome A) (k : A -> outcome B) : outcome B :=
  match o with
  | Ret a => k a
  | Fault => Fault
  | OutOfFuel => OutOfFuel
  end.

Notation "x <- e ;; k" := (obind e (fun x => k))
  (at level 61, e at next level, right associativity).

(** ** The caller's buffer and the reads *)

Record buffer : Type := { base : Z; data : list byte }.

Definition buf_size (m : buffer) : Z := Z.of_nat (length (data m)).

Definition NULL : Z := 0.

(** Pointer arithmetic on a 64-bit target. *)
Definition ptr_add (p n : Z) : Z := (p + n) mod 2 ^ 64.

(** A well-placed buffer: not at [NULL], and its end is an address. *)
Definition valid_buffer (m : buffer) : Prop :=
  0 < base m /\ base m + buf_size m < 2 ^ 64.

Definition in_bounds (m : buffer) (a n : Z) : bool :=
  (base m <=? a) && (a + n <=? base m + buf_size m).

Definition load_bytes (m : buffer) (a n : Z) : outcome (list byte) :=
  if in_bounds m a n
  then Ret (firstn (Z.to_nat n) (skipn (Z.to_nat (a - base m)) (data m)))
  else Fault.

Definition u8 (b : byte) : Z := Z.of_N (Byte.to_N b).

(** The host is little-endian (it runs images whose magic reads as
    [MH_MAGIC_64] without a byte swap). *)
Fixpoint le_decode (bs : list byte) : Z :=
  match bs with
  | [] => 0
  | b :: t => u8 b + 256 * le_decode t
  end.

Definition load8 (m : buffer) (a : Z) : outcome Z :=
  bs <- load_bytes m a 1 ;; Ret (le_decode bs).

Definition load32 (m : buffer) (a : Z) : outcome Z :=
  bs <- load_bytes m a 4 ;; Ret (le_decode bs).

(** Modelled from the spec: [ntohl] comes from the system headers, which are
    not among the sources; the signature structures are big-endian on the wire,
    so on this host it reverses the four bytes of its argument. *)
Definition ntohl (x : Z) : Z :=
  Z.lor (Z.lor (Z.shiftl (Z.land x 255) 24) (Z.shiftl (Z.land x 65280) 8))
        (Z.lor (Z.land (Z.shiftr x 8) 65280) (Z.land (Z.shiftr x 24) 255)).

Definition load_be32 (m : buffer) (a : Z) : outcome Z :=
  x <- load32 m a ;; Ret (ntohl x).

(** ** Constants and layouts of the absent headers *)

(** Modelled from the spec: [cdhash.h] and the system headers
    [mach-o/loader.h] and [CommonCrypto.h] are not among the sources.  The
    spec names these constants and says their numeric values are fixed by the
    binary format; the values and the field offsets below are the format's. *)
Definition MH_MAGIC_64 : Z := 0xfeedfacf.
Definition LC_CODE_SIGNATURE : Z := 0x1d.
Definition CSMAGIC_CODEDIRECTORY : Z := 0xfade0c02.
Definition CSMAGIC_EMBEDDED_SIGNATURE : Z := 0xfade0cc0.
Definition CSSLOT_CODEDIRECTORY : Z := 0.
Definition CSSLOT_ALTERNATE_CODEDIRECTORIES : Z := 0x1000.
Definition CSSLOT_ALTERNATE_CODEDIRECTORY_LIMIT : Z := 0x1005.
Definition CS_HASHTYPE_SHA1 : Z := 1.
Definition CS_HASHTYPE_SHA256 : Z := 2.
Definition CS_HASHTYPE_SHA256_TRUNCATED : Z := 3.
Definition CS_HASHTYPE_SHA384 : Z := 4.
Definition CS_CDHASH_LEN : nat := 20.

(** struct mach_header_64 *)
Definition sizeof_mach_header_64 : Z := 32.
Definition mh_magic : Z := 0.
Definition mh_sizeofcmds : Z := 20.
(** struct load_command and struct linkedit_data_command *)
Definition lc_cmd : Z := 0.
Definition lc_cmdsize : Z := 4.
Definition lc_dataoff : Z := 8.
Definition lc_datasize : Z := 12.
(** CS_GenericBlob, CS_SuperBlob, CS_BlobIndex *)
Definition sizeof_CS_GenericBlob : Z := 8.
Definition sizeof_CS_SuperBlob : Z := 12.
Definition sizeof_CS_BlobIndex : Z := 8.
Definition blob_magic : Z := 0.
Definition blob_length : Z := 4.
Definition sb_count : Z := 8.
Definition sb_index : Z := 12.
Definition bi_type : Z := 0.
Definition bi_offset : Z := 4.
(** CS_CodeDirectory *)
Definition sizeof_CS_CodeDirectory : Z := 88.
Definition cd_hashType : Z := 37.

(** ** Mach-O reader *)

(** Check whether the file looks like a Mach-O file. *)
Definition macho_identify (m : buffer) (mh size : Z) : outcome bool :=
  if size <? 0x1000 then Ret false
  else
    magic <- load32 m (mh + mh_magic) ;;
    if negb (magic =? MH_MAGIC_64) then Ret false else Ret true.

(** The [while (lc_p < lc_end)] loop of [macho_validate]. *)
Fixpoint macho_validate_loop (fuel : nat) (m : buffer) (lc_p lc_end : Z)
  : outcome bool :=
  match fuel with
  | O => OutOfFuel
  | S fuel' =>
      if lc_p <? lc_end then
        cmdsize <- load32 m (lc_p + lc_cmdsize) ;;
        if cmdsize >=? 0x80000000 then Ret false
        else
          let lc_next := ptr_add lc_p cmdsize in
          if lc_next >? lc_end then Ret false
          else macho_validate_loop fuel' m lc_next lc_end
      else Ret true
  end.

Definition macho_validate (fuel : nat) (m : buffer) (mh size : Z) : outcome bool :=
  ok <- macho_identify m mh size ;;
  if negb ok then Ret false
  else
    sizeofcmds <- load32 m (mh + mh_sizeofcmds) ;;
    if sizeofcmds >? size then Ret false
    else
      let lc_p := ptr_add mh sizeof_mach_header_64 in
      let lc_end := ptr_add lc_p sizeofcmds in
      macho_validate_loop fuel m lc_p lc_end.

(** Get the next load command in a Mach-O file. *)
Definition macho_next_load_command (m : buffer) (mh size lc : Z) : outcome Z :=
  next <- (if lc =? NULL then Ret (ptr_add mh sizeof_mach_header_64)
           else cmdsize <- load32 m (lc + lc_cmdsize) ;; Ret (ptr_add lc cmdsize)) ;;
  sizeofcmds <- load32 m (mh + mh_sizeofcmds) ;;
  if next >=? ptr_add (ptr_add mh sizeof_mach_header_64) sizeofcmds
  then Ret NULL
  else Ret next.

(** Find the next load command matching the given type: the [for (;;)] loop. *)
Fixpoint macho_find_load_command (fuel : nat) (m : buffer) (mh size command lc : Z)
  : outcome Z :=
  match fuel with
  | O => OutOfFuel
  | S fuel' =>
      loadcmd <- macho_next_load_command m mh size lc ;;
      if loadcmd =? NULL then Ret loadcmd
      else
        cmd <- load32 m (loadcmd + lc_cmd) ;;
        if cmd =? command then Ret loadcmd
        else macho_find_load_command fuel' m mh size command loadcmd
  end.

(** ** Code-directory and super-blob validation *)

(** Validate a CS_CodeDirectory and return its true length. *)
Definition cs_codedirectory_validate (m : buffer) (cd size : Z) : outcome Z :=
  if size <? sizeof_CS_CodeDirectory then Ret 0
  else
    magic <- load_be32 m (cd + blob_magic) ;;
    if negb (magic =? CSMAGIC_CODEDIRECTORY) then Ret 0
    else
      length <- load_be32 m (cd + blob_length) ;;
      if length >? size then Ret 0 else Ret length.

(** [&sb->index[i]] *)
Definition index_at (sb i : Z) : Z :=
  ptr_add sb (sb_index + sizeof_CS_BlobIndex * i).

(** Validate a CS_SuperBlob and return its true length. *)
Definition cs_superblob_validate (m : buffer) (sb size : Z) : outcome Z :=
  if size <? sizeof_CS_SuperBlob then Ret 0
  else
    magic <- load_be32 m (sb + blob_magic) ;;
    if negb (magic =? CSMAGIC_EMBEDDED_SIGNATURE) then Ret 0
    else
      length <- load_be32 m (sb + blob_length) ;;
      if length >? size then Ret 0
      else
        count <- load_be32 m (sb + sb_count) ;;
        let index := index_at sb count in
        if (count >=? 0x10000) || (index >? ptr_add sb size) then Ret 0
        else Ret length.

(** ** The output buffer *)

(** The functions that receive the [cdhash] pointer thread the log of the
    [memcpy] calls made through it: one entry, the bytes copied, per call.  An
    empty log means that no byte of the caller's output buffer was written. *)
Definition cdhash_log : Type := list (list byte).

Definition M (A : Type) : Type := cdhash_log -> outcome A * cdhash_log.

Definition mret {A : Type} (a : A) : M A := fun s => (Ret a, s).

Definition mbind {A B : Type} (c : M A) (k : A -> M B) : M B :=
  fun s =>
    match c s with
    | (Ret a, s') => k a s'
    | (Fault, s') => (Fault, s')
    | (OutOfFuel, s') => (OutOfFuel, s')
    end.

(** A computation that only reads. *)
Definition lift {A : Type} (o : outcome A) : M A := fun s => (o, s).

(** [memcpy(cdhash, digest, CS_CDHASH_LEN)] *)
Definition memcpy_cdhash (digest : list byte) : M unit :=
  fun s => (Ret tt, s ++ [firstn CS_CDHASH_LEN digest]).

Notation "x <~ e ;; k" := (mbind e (fun x => k))
  (at level 61, e at next level, right associativity).

(** ** Code-directory rank *)

(** The supported hash types, ranked from least to most preferred. *)
Definition ranked_hash_types : list Z :=
  [CS_HASHTYPE_SHA1; CS_HASHTYPE_SHA256_TRUNCATED; CS_HASHTYPE_SHA256; CS_HASHTYPE_SHA384].

(** The [for] loop of [cs_codedirectory_rank] from index [i] on, over the
    entries of the table that are left. *)
Fixpoint rank_loop (types : list Z) (i : Z) (hashType : Z) : Z :=
  match types with
  | [] => 0
  | t :: rest => if t =? hashType then i + 1 else rank_loop rest (i + 1) hashType
  end.

(** Get the rank of a code directory.  The buffer does not change, so the
    field [cd->hashType] that every iteration reads is read once. *)
Definition cs_codedirectory_rank (m : buffer) (cd : Z) : outcome Z :=
  hashType <- load8 m (cd + cd_hashType) ;;
  Ret (rank_loop ranked_hash_types 0 hashType).

Record best : Type :=
  { best_cd : Z; best_cd_rank : Z; best_cd_size : Z }.

Definition is_codedirectory_slot (type : Z) : bool :=
  (type =? CSSLOT_CODEDIRECTORY)
  || ((CSSLOT_ALTERNATE_CODEDIRECTORIES <=? type)
      && (type <? CSSLOT_ALTERNATE_CODEDIRECTORY_LIMIT)).

(** The [for (i = 0; i < count; i++)] loop of [cs_superblob_cdhash], with [n]
    iterations left; [None] is the early [return false]. *)
Fixpoint cs_superblob_scan (n : nat) (m : buffer) (sb size i : Z) (b : best)
  : outcome (option best) :=
  match n with
  | O => Ret (Some b)
  | S n' =>
      let index := index_at sb i in
      type <- load_be32 m (index + bi_type) ;;
      offset <- load_be32 m (index + bi_offset) ;;
      if offset >? size then Ret None
      else if is_codedirectory_slot type then
        let cd := ptr_add sb offset in
        cd_size <- cs_codedirectory_validate m cd (size - offset) ;;
        if cd_size =? 0 then Ret None
        else
          cd_rank <- cs_codedirectory_rank m cd ;;
          cs_superblob_scan n' m sb size (i + 1)
            (if cd_rank >? best_cd_rank b
             then {| best_cd := cd; best_cd_rank := cd_rank; best_cd_size := cd_size |}
             else b)
      else cs_superblob_scan n' m sb size (i + 1) b
  end.

Definition no_best : best :=
  {| best_cd := NULL; best_cd_rank := 0; best_cd_size := 0 |}.

Section Digest.

(** The digest engine: SHA-1 and SHA-256 of CommonCrypto, trusted library
    calls that are not part of the program. *)
Variable CC_SHA1 : list byte -> list byte.
Variable CC_SHA256 : list byte -> list byte.

(** [(CC_LONG) length] *)
Definition CC_LONG (length : Z) : Z := length mod 2 ^ 32.

(** Compute the cdhash of a code directory using SHA1. *)
Definition cdhash_sha1 (m : buffer) (cd length : Z) : M unit :=
  bytes <~ lift (load_bytes m cd (CC_LONG length)) ;;
  memcpy_cdhash (CC_SHA1 bytes).

(** Compute the cdhash of a code directory using SHA256. *)
Definition cdhash_sha256 (m : buffer) (cd length : Z) : M unit :=
  bytes <~ lift (load_bytes m cd (CC_LONG length)) ;;
  memcpy_cdhash (CC_SHA256 bytes).

(** Compute the cdhash from a CS_CodeDirectory. *)
Definition cs_codedirectory_cdhash (m : buffer) (cd size : Z) : M bool :=
  length <~ lift (load_be32 m (cd + blob_length)) ;;
  hashType <~ lift (load8 m (cd + cd_hashType)) ;;
  if hashType =? CS_HASHTYPE_SHA1 then
    _ <~ cdhash_sha1 m cd length ;; mret true
  else if hashType =? CS_HASHTYPE_SHA256 then
    _ <~ cdhash_sha256 m cd length ;; mret true
  else mret false.

(** Compute the cdhash from a CS_SuperBlob. *)
Definition cs_superblob_cdhash (m : buffer) (sb size : Z) : M bool :=
  count <~ lift (load_be32 m (sb + sb_count)) ;;
  r <~ lift (cs_superblob_scan (Z.to_nat count) m sb size 0 no_best) ;;
  match r with
  | None => mret false
  | Some b =>
      if best_cd b =? NULL then mret false
      else cs_codedirectory_cdhash m (best_cd b) (best_cd_size b)
  end.

(** Compute the cdhash from a csblob. *)
Definition csblob_cdhash (m : buffer) (blob size : Z) : M bool :=
  if size <? sizeof_CS_GenericBlob then mret false
  else
    magic <~ lift (load_be32 m (blob + blob_magic)) ;;
    length <~ lift (load_be32 m (blob + blob_length)) ;;
    if length >? size then mret false
    else if magic =? CSMAGIC_EMBEDDED_SIGNATURE then
      ok <~ lift (cs_superblob_validate m blob length) ;;
      if ok =? 0 then mret false
      else cs_superblob_cdhash m blob length
    else if magic =? CSMAGIC_CODEDIRECTORY then
      ok <~ lift (cs_codedirectory_validate m blob length) ;;
      if ok =? 0 then mret false
      else cs_codedirectory_cdhash m blob length
    else mret false.

(** Compute the cdhash for a Mach-O file. *)
Definition compute_cdhash_macho (fuel : nat) (m : buffer) (mh size : Z) : M bool :=
  cs_cmd <~ lift (macho_find_load_command fuel m mh size LC_CODE_SIGNATURE NULL) ;;
  if cs_cmd =? NULL then mret false
  else
    dataoff <~ lift (load32 m (cs_cmd + lc_dataoff)) ;;
    let cs_data := ptr_add mh dataoff in
    datasize <~ lift (load32 m (cs_cmd + lc_datasize)) ;;
    let cs_end := ptr_add cs_data datasize in
    if negb ((mh <? cs_data) && (cs_data <? cs_end) && (cs_end <=? ptr_add mh size))
    then mret false
    else csblob_cdhash m cs_data (cs_end - cs_data).

Definition compute_cdhash (fuel : nat) (m : buffer) (file size : Z) : M bool :=
  ok <~ lift (macho_identify m file size) ;;
  if ok then
    valid <~ lift (macho_validate fuel m file size) ;;
    if negb valid then mret false
    else compute_cdhash_macho fuel m file size
  else mret false.

(** A call on the whole buffer, with a fresh output buffer. *)
Definition run_compute_cdhash (fuel : nat) (m : buffer) : outcome bool * cdhash_log :=
  compute_cdhash fuel m (base m) (buf_size m) [].

End Digest.

(** ** Building concrete images *)

Definition byte_of (z : Z) : byte :=
  match Byte.of_N (Z.to_N (z mod 256)) with
  | Some b => b
  | None => x00
  end.

(** The four bytes of a 32-bit value, least significant first. *)
Definition le32 (x : Z) : list byte :=
  [byte_of x; byte_of (x / 2 ^ 8); byte_of (x / 2 ^ 16); byte_of (x / 2 ^ 24)].

(** The four bytes of a 32-bit value in wire (big-endian) order. *)
Definition be32 (x : Z) : list byte := rev (le32 x).

Definition zeros (n : nat) : list byte := repeat x00 n.

Definition pad_to (n : nat) (bs : list byte) : list byte :=
  bs ++ zeros (n - length bs).

(** A [mach_header_64] with the given [sizeofcmds]. *)
Definition macho_header (sizeofcmds : Z) : list byte :=
  le32 MH_MAGIC_64 ++ zeros 16 ++ le32 sizeofcmds ++ zeros 8.

(** A [CS_CodeDirectory] header of [sizeof_CS_CodeDirectory] bytes declaring
    the given length and hash type. *)
Definition code_directory (length hashType : Z) : list byte :=
  be32 CSMAGIC_CODEDIRECTORY ++ be32 length ++ zeros 29 ++ [byte_of hashType] ++ zeros 50.

(** A super-blob header followed by its index. *)
Definition super_blob_index (length : Z) (entries : list (Z * Z)) : list byte :=
  be32 CSMAGIC_EMBEDDED_SIGNATURE ++ be32 length ++ be32 (Z.of_nat (List.length entries))
  ++ flat_map (fun e => be32 (fst e) ++ be32 (snd e)) entries.

Definition image_base : Z := 0x100000000.

(** A lone code directory, declaring [length] bytes, in a buffer of [n] bytes. *)
Definition cd_buffer (length hashType : Z) (n : nat) : buffer :=
  {| base := image_base; data := pad_to n (code_directory length hashType) |}.

(** A super-blob with a SHA1 and a SHA256 code directory, both valid, and a
    third index entry, not a code-directory slot, whose offset is far above
    the size. *)
Definition two_directories_stray_entry : list byte :=
  super_blob_index 212 [(CSSLOT_CODEDIRECTORY, 36);
                        (CSSLOT_ALTERNATE_CODEDIRECTORIES, 124);
                        (5, 9999)]
  ++ code_directory 88 CS_HASHTYPE_SHA1 ++ code_directory 88 CS_HASHTYPE_SHA256.

(** The same two code directories with a third entry, of an alternate
    code-directory slot type, that points at 88 zero bytes. *)
Definition two_directories_broken_entry : list byte :=
  super_blob_index 300 [(CSSLOT_CODEDIRECTORY, 36);
                        (CSSLOT_ALTERNATE_CODEDIRECTORIES, 124);
                        (CSSLOT_ALTERNATE_CODEDIRECTORIES + 1, 212)]
  ++ code_directory 88 CS_HASHTYPE_SHA1 ++ code_directory 88 CS_HASHTYPE_SHA256
  ++ zeros 88.

(** ** Specification-level notions *)

(** A computation writes through [cdhash] all or nothing when, from any log,
    it either returns [true] after exactly one [memcpy] of a truncated digest,
    or does something else (returns [false], faults, runs out of fuel) and
    leaves the log as it found it. *)
Definition all_or_nothing (c : M bool) : Prop :=
  forall log,
    (exists digest, c log = (Ret true, log ++ [firstn CS_CDHASH_LEN digest]))
    \/ (fst (c log) <> Ret true /\ snd (c log) = log).

(** What the scan of [cs_superblob_cdhash] sees in one index entry. *)
Inductive slot : Type :=
| OutOfRange                         (* the offset is above [size] *)
| Other                              (* not a code-directory slot type *)
| Malformed                          (* a code-directory slot that validation refuses *)
| Candidate (cd len hashType : Z).   (* a validated code directory at address [cd] *)

(** Entry [i] of the index of the super-blob at [sb], read as the loop body
    reads it. *)
Definition classify (m : buffer) (sb size i : Z) : outcome slot :=
  let index := index_at sb i in
  type <- load_be32 m (index + bi_type) ;;
  offset <- load_be32 m (index + bi_offset) ;;
  if offset >? size then Ret OutOfRange
  else if is_codedirectory_slot type then
    let cd := ptr_add sb offset in
    cd_size <- cs_codedirectory_validate m cd (size - offset) ;;
    if cd_size =? 0 then Ret Malformed
    else
      hashType <- load8 m (cd + cd_hashType) ;;
      Ret (Candidate cd cd_size hashType)
  else Ret Other.

Fixpoint slots_from (n : nat) (m : buffer) (sb size i : Z) : outcome (list slot) :=
  match n with
  | O => Ret []
  | S n' =>
      s <- classify m sb size i ;;
      rest <- slots_from n' m sb size (i + 1) ;;
      Ret (s :: rest)
  end.

(** The index of a super-blob, entry by entry, in index order. *)
Definition superblob_slots (m : buffer) (sb size : Z) : outcome (list slot) :=
  count <- load_be32 m (sb + sb_count) ;;
  slots_from (Z.to_nat count) m sb size 0.

(** The rank of a hash type: what [cs_codedirectory_rank] computes from the
    field it reads. *)
Definition rank_of (hashType : Z) : Z := rank_loop ranked_hash_types 0 hashType.

(** One step of the selection: a candidate of strictly greater rank replaces
    the running best. *)
Definition prefer (b : best) (s : slot) : best :=
  match s with
  | Candidate cd len hashType =>
      if rank_of hashType >? best_cd_rank b
      then {| best_cd := cd; best_cd_rank := rank_of hashType; best_cd_size := len |}
      else b
  | _ => b
  end.

(** The selection over a list of slots; [None] when a slot makes the scan
    give up. *)
Fixpoint select (slots : list slot) (b : best) : option best :=
  match slots with
  | [] => Some b
  | OutOfRange :: _ => None
  | Malformed :: _ => None
  | s :: rest => select rest (prefer b s)
  end.

Definition rejected (s : slot) : bool :=
  match s with
  | OutOfRange | Malformed => true
  | _ => false
  end.

Definition is_candidate (s : slot) : bool :=
  match s with
  | Candidate _ _ _ => true
  | _ => false
  end.

(** The rank of a slot: that of its hash type for a candidate, 0 otherwise. *)
Definition slot_rank (s : slot) : Z :=
  match s with
  | Candidate _ _ hashType => rank_of hashType
  | _ => 0
  end.

(** The region of [size] bytes at [p] lies inside a well-placed buffer. *)
Definition region_in_buffer (m : buffer) (p size : Z) : Prop :=
  valid_buffer m /\ base m <= p /\ p + size <= base m + buf_size m.

(** The test of [compute_cdhash_macho] on the signature region, on the
    pointers the code computes. *)
Definition signature_region_ok (mh size dataoff datasize : Z) : Prop :=
  let cs_data := ptr_add mh dataoff in
  let cs_end := ptr_add cs_data datasize in
  mh < cs_data /\ cs_data < cs_end /\ cs_end <= ptr_add mh size.

(** ** Concrete images *)

(** Stand-ins for the two digest functions, to run the model on an image. *)
Definition toy_sha1 (bs : list byte) : list byte := x01 :: bs.
Definition toy_sha256 (bs : list byte) : list byte := x02 :: bs.

(** A page-sized image whose header declares [sizeofcmds = size]: the first
    load command ends four bytes before the end of the buffer, so the second
    one has its [cmdsize] field past the end. *)
Definition oob_image : buffer :=
  {| base := image_base;
     data := pad_to 4096 (macho_header 4096 ++ le32 0 ++ le32 4060) |}.

(** A page-sized image with one load command whose [cmdsize] is 0. *)
Definition spin_image : buffer :=
  {| base := image_base;
     data := pad_to 4096 (macho_header 8 ++ le32 0 ++ le32 0) |}.

(** A page-sized image with one [LC_CODE_SIGNATURE] command that places the
    signature [sig] at offset 64. *)
Definition signed_image (sig : list byte) : buffer :=
  {| base := image_base;
     data := pad_to 4096 (macho_header 16
                          ++ le32 LC_CODE_SIGNATURE ++ le32 16
                          ++ le32 64 ++ le32 (Z.of_nat (length sig))
                          ++ zeros 16 ++ sig) |}.

(** A super-blob with two code directories, of hash types [h1] and [h2], in
    the primary and the first alternate slot. *)
Definition two_directories (h1 h2 : Z) : list byte :=
  super_blob_index 204 [(CSSLOT_CODEDIRECTORY, 28); (CSSLOT_ALTERNATE_CODEDIRECTORIES, 116)]
  ++ code_directory 88 h1 ++ code_directory 88 h2.

(** A page-sized image whose load commands fill the buffer exactly: the last
    one is an eight-byte [LC_CODE_SIGNATURE] command, too short to hold the
    [dataoff] and [datasize] fields that [compute_cdhash_macho] reads. *)
Definition short_command_image : buffer :=
  {| base := image_base;
     data := pad_to 4088 (macho_header 4064 ++ le32 0 ++ le32 4056)
             ++ le32 LC_CODE_SIGNATURE ++ le32 8 |}.

(** A buffer that holds a signature blob and nothing else. *)
Definition blob_buffer (sig : list byte) : buffer :=
  {| base := image_base; data := sig |}.

(** A super-blob whose second entry, not a code-directory slot, has an offset
    far above the size. *)
Definition stray_offset_blob : list byte :=
  super_blob_index 116 [(CSSLOT_CODEDIRECTORY, 28); (5, 9999)]
  ++ code_directory 88 CS_HASHTYPE_SHA256.

(** A super-blob with a valid code directory in the primary slot and 88 zero
    bytes, which are no code directory, in the first alternate slot. *)
Definition broken_directory_blob : list byte :=
  super_blob_index 204 [(CSSLOT_CODEDIRECTORY, 28); (CSSLOT_ALTERNATE_CODEDIRECTORIES, 116)]
  ++ code_directory 88 CS_HASHTYPE_SHA256 ++ zeros 88.

(** A signed image whose only code directory declares a length of one byte. *)
Definition short_directory_image : buffer :=
  signed_image (super_blob_index 108 [(CSSLOT_CODEDIRECTORY, 20)]
                ++ code_directory 1 CS_HASHTYPE_SHA256).

(** ** Notions for the properties of the walk and of the truncated buffer *)

(** The addresses of the load commands that the walk of [macho_validate]
    steps over, in order, from [lc_p] to the end of the table. *)
Fixpoint load_commands (fuel : nat) (m : buffer) (lc_p lc_end : Z) : outcome (list Z) :=
  match fuel with
  | O => OutOfFuel
  | S fuel' =>
      if lc_p <? lc_end then
        cmdsize <- load32 m (lc_p + lc_cmdsize) ;;
        rest <- load_commands fuel' m (ptr_add lc_p cmdsize) lc_end ;;
        Ret (lc_p :: rest)
      else Ret []
  end.

(** The first of the commands whose [cmd] field is [command]; [NULL] when
    there is none. *)
Fixpoint first_command (m : buffer) (command : Z) (cmds : list Z) : Z :=
  match cmds with
  | [] => NULL
  | lc :: rest =>
      match load32 m (lc + lc_cmd) with
      | Ret cmd => if cmd =? command then lc else first_command m command rest
      | _ => first_command m command rest
      end
  end.

(** The buffer cut to its first [n] bytes. *)
Definition truncate (n : nat) (m : buffer) : buffer :=
  {| base := base m; data := firstn n (data m) |}.

(** A page-sized image with one 16-byte load command that is not a
    code-signature command. *)
Definition unsigned_image : buffer :=
  {| base := image_base;
     data := pad_to 4096 (macho_header 16 ++ le32 0x19 ++ le32 16) |}.

(** The buffer lies in the lower half of the address space and not at
    [NULL], as the mappings of a 64-bit user process do. *)
Definition low_buffer (m : buffer) : Prop :=
  0 < base m /\ base m + buf_size m <= 2 ^ 63.

(** The addresses that the walk over the load commands reaches from [start]:
    each one below the end of the table leads to the next by its [cmdsize]. *)
Inductive walk_reaches (m : buffer) (lc_end start : Z) : Z -> Prop :=
| reaches_start : walk_reaches m lc_end start start
| reaches_next (p cmdsize : Z) :
    walk_reaches m lc_end start p ->
    p < lc_end ->
    load32 m (p + lc_cmdsize) = Ret cmdsize ->
    walk_reaches m lc_end start (ptr_add p cmdsize).

(** An image of 4300 bytes whose signature, a super-blob with a SHA1 and a
    SHA256 code directory, fills the bytes after the first page. *)
Definition late_signature_image : buffer :=
  {| base := image_base;
     data := pad_to 4096 (macho_header 16
                          ++ le32 LC_CODE_SIGNATURE ++ le32 16
                          ++ le32 4096 ++ le32 204)
             ++ two_directories CS_HASHTYPE_SHA1 CS_HASHTYPE_SHA256 |}.

(** [digest] is the cdhash of a code directory at [cd] with [avail] bytes
    available: the structure fits, the magic is the code-directory magic, the
    declared length is positive and at most [avail], the hash type is SHA1 or
    SHA256, and [digest] is the first [CS_CDHASH_LEN] bytes of that digest of
    the declared-length bytes at [cd], all of them in the buffer. *)
Definition digest_of_directory (CC_SHA1 CC_SHA256 : list byte -> list byte)
    (m : buffer) (cd avail : Z) (digest : list byte) : Prop :=
  exists len h bytes,
    sizeof_CS_CodeDirectory <= avail
    /\ load_be32 m (cd + blob_magic) = Ret CSMAGIC_CODEDIRECTORY
    /\ load_be32 m (cd + blob_length) = Ret len
    /\ 0 < len <= avail
    /\ load8 m (cd + cd_hashType) = Ret h
    /\ load_bytes m cd len = Ret bytes
    /\ ((h = CS_HASHTYPE_SHA1 /\ digest = firstn CS_CDHASH_LEN (CC_SHA1 bytes))
        \/ (h = CS_HASHTYPE_SHA256 /\ digest = firstn CS_CDHASH_LEN (CC_SHA256 bytes))).

(** The super-blob of [two_directories] with its two index entries swapped. *)
Definition swapped_directories (h1 h2 : Z) : list byte :=
  super_blob_index 204 [(CSSLOT_ALTERNATE_CODEDIRECTORIES, 116); (CSSLOT_CODEDIRECTORY, 28)]
  ++ code_directory 88 h1 ++ code_directory 88 h2.

(** * Properties *)

(** ** Ranges of the values that are read *)

Lemma u8_range (b : byte) : 0 <= u8 b < 256.
Proof.
  unfold u8. pose proof (Byte.to_N_bounded b). lia.
Qed.

Lemma le_decode_range (bs : list byte) :
  0 <= le_decode bs < 256 ^ Z.of_nat (length bs).
Proof.
  induction bs as [|b t IH].
  - simpl. lia.
  - cbn [le_decode length]. rewrite Nat2Z.inj_succ, Z.pow_succ_r by lia.
    pose proof (u8_range b). lia.
Qed.

Lemma load_bytes_inv (m : buffer) (a n : Z) (bs : list byte) :
  load_bytes m a n = Ret bs ->
  base m <= a /\ a + n <= base m + buf_size m /\
  bs = firstn (Z.to_nat n) (skipn (Z.to_nat (a - base m)) (data m)).
Proof.
  unfold load_bytes, in_bounds. intros H.
  destruct (base m <=? a) eqn:E1; destruct (a + n <=? base m + buf_size m) eqn:E2;
    cbn in H; try discriminate.
  injection H as <-. apply Z.leb_le in E1, E2. auto.
Qed.

Lemma load_bytes_ok (m : buffer) (a n : Z) :
  base m <= a -> a + n <= base m + buf_size m ->
  exists bs, load_bytes m a n = Ret bs.
Proof.
  intros H1 H2. unfold load_bytes, in_bounds.
  apply Z.leb_le in H1, H2. rewrite H1, H2. cbn. eauto.
Qed.

Lemma load_bytes_length (m : buffer) (a n : Z) (bs : list byte) :
  load_bytes m a n = Ret bs -> (length bs <= Z.to_nat n)%nat.
Proof.
  intros H. apply load_bytes_inv in H as (_ & _ & ->).
  rewrite length_firstn. lia.
Qed.

Lemma load32_inv (m : buffer) (a x : Z) :
  load32 m a = Ret x ->
  base m <= a /\ a + 4 <= base m + buf_size m /\ 0 <= x < 2 ^ 32.
Proof.
  unfold load32. destruct (load_bytes m a 4) as [bs| |] eqn:E; cbn; try discriminate.
  intros H. injection H as <-.
  pose proof (load_bytes_length _ _ _ _ E) as Hl.
  apply load_bytes_inv in E as (H1 & H2 & _).
  pose proof (le_decode_range bs) as Hr.
  assert (256 ^ Z.of_nat (length bs) <= 256 ^ 4)
    by (apply Z.pow_le_mono_r; lia).
  change (256 ^ 4) with (2 ^ 32) in *. lia.
Qed.

Lemma load8_inv (m : buffer) (a x : Z) :
  load8 m a = Ret x ->
  base m <= a /\ a + 1 <= base m + buf_size m /\ 0 <= x < 256.
Proof.
  unfold load8. destruct (load_bytes m a 1) as [bs| |] eqn:E; cbn; try discriminate.
  intros H. injection H as <-.
  pose proof (load_bytes_length _ _ _ _ E) as Hl.
  apply load_bytes_inv in E as (H1 & H2 & _).
  pose proof (le_decode_range bs) as Hr.
  assert (256 ^ Z.of_nat (length bs) <= 256 ^ 1)
    by (apply Z.pow_le_mono_r; lia).
  lia.
Qed.

Lemma load32_ok (m : buffer) (a : Z) :
  base m <= a -> a + 4 <= base m + buf_size m -> exists x, load32 m a = Ret x.
Proof.
  intros H1 H2. destruct (load_bytes_ok m a 4 H1 H2) as [bs E].
  unfold load32. rewrite E. cbn. eauto.
Qed.

Lemma load8_ok (m : buffer) (a : Z) :
  base m <= a -> a + 1 <= base m + buf_size m -> exists x, load8 m a = Ret x.
Proof.
  intros H1 H2. destruct (load_bytes_ok m a 1 H1 H2) as [bs E].
  unfold load8. rewrite E. cbn. eauto.
Qed.

(** A non-negative number below [2 ^ n], said with its highest bit. *)
Lemma below_pow2_log2 (a n : Z) :
  0 <= a -> 0 < n -> (a < 2 ^ n <-> Z.log2 a < n).
Proof.
  intros Ha Hn. destruct (Z.eq_dec a 0) as [->|Hz].
  - cbn. split; intros _; [lia | apply Z.pow_pos_nonneg; lia].
  - apply Z.log2_lt_pow2. lia.
Qed.

Lemma lor_below_pow2 (a b n : Z) :
  0 < n -> 0 <= a < 2 ^ n -> 0 <= b < 2 ^ n -> 0 <= Z.lor a b < 2 ^ n.
Proof.
  intros Hn [Ha Ha'] [Hb Hb']. split.
  - apply Z.lor_nonneg. auto.
  - apply below_pow2_log2; [apply Z.lor_nonneg; auto | lia |].
    rewrite Z.log2_lor by lia.
    apply below_pow2_log2 in Ha', Hb'; lia.
Qed.

Lemma land_mask_below (x mask n : Z) :
  0 < n -> 0 <= mask < 2 ^ n -> 0 <= Z.land x mask < 2 ^ n.
Proof.
  intros Hn [Hm Hm'].
  assert (Hnn : 0 <= Z.land x mask) by (apply Z.land_nonneg; auto).
  split; [exact Hnn|].
  destruct (Z_lt_le_dec x 0) as [Hneg|Hpos].
  - (* a negative [x] still only keeps bits of the mask *)
    apply below_pow2_log2; [exact Hnn | lia |].
    apply below_pow2_log2 in Hm'; [|lia|lia].
    destruct (Z.eq_dec (Z.land x mask) 0) as [->|Hz]; [cbn; lia|].
    apply Z.log2_lt_pow2; [lia|].
    apply Z.log2_lt_pow2 in Hm' as Hm''.
    2:{ destruct (Z.eq_dec mask 0) as [->|]; [rewrite Z.land_0_r in Hz; lia | lia]. }
    assert (Hbits : forall i, n <= i -> Z.testbit (Z.land x mask) i = false).
    { intros i Hi. rewrite Z.land_spec.
      replace (Z.testbit mask i) with false; [apply andb_false_r|].
      symmetry. apply Z.bits_above_log2; lia. }
    destruct (Z_lt_le_dec (Z.land x mask) (2 ^ n)) as [|Hge]; [assumption|].
    exfalso.
    assert (Hl : n <= Z.log2 (Z.land x mask)).
    { apply Z.log2_le_pow2; lia. }
    pose proof (Z.bit_log2 (Z.land x mask) ltac:(lia)) as Hb.
    rewrite Hbits in Hb by lia. discriminate.
  - apply below_pow2_log2; [exact Hnn | lia |].
    apply below_pow2_log2 in Hm'; [|lia|lia].
    pose proof (Z.log2_land x mask Hpos Hm). lia.
Qed.

Lemma ntohl_range (x : Z) : 0 <= ntohl x < 2 ^ 32.
Proof.
  unfold ntohl.
  pose proof (land_mask_below x 255 8 ltac:(lia) ltac:(lia)) as H1.
  pose proof (land_mask_below x 65280 16 ltac:(lia) ltac:(lia)) as H2.
  pose proof (land_mask_below (Z.shiftr x 8) 65280 16 ltac:(lia) ltac:(lia)) as H3.
  pose proof (land_mask_below (Z.shiftr x 24) 255 8 ltac:(lia) ltac:(lia)) as H4.
  rewrite !Z.shiftl_mul_pow2 by lia.
  repeat apply lor_below_pow2; lia.
Qed.

Lemma load_be32_inv (m : buffer) (a x : Z) :
  load_be32 m a = Ret x ->
  base m <= a /\ a + 4 <= base m + buf_size m /\ 0 <= x < 2 ^ 32.
Proof.
  unfold load_be32. destruct (load32 m a) as [y| |] eqn:E; cbn; try discriminate.
  intros H. injection H as <-.
  apply load32_inv in E as (H1 & H2 & _).
  pose proof (ntohl_range y). lia.
Qed.

Lemma load_be32_ok (m : buffer) (a : Z) :
  base m <= a -> a + 4 <= base m + buf_size m -> exists x, load_be32 m a = Ret x.
Proof.
  intros H1 H2. destruct (load32_ok m a H1 H2) as [y E].
  unfold load_be32. rewrite E. cbn. eauto.
Qed.

(** ** Code-directory validation *)

Lemma cs_codedirectory_validate_inv (m : buffer) (cd size len : Z) :
  cs_codedirectory_validate m cd size = Ret len ->
  len <> 0 ->
  sizeof_CS_CodeDirectory <= size /\
  load_be32 m (cd + blob_magic) = Ret CSMAGIC_CODEDIRECTORY /\
  load_be32 m (cd + blob_length) = Ret len /\
  0 < len <= size.
Proof.
  unfold cs_codedirectory_validate. intros H Hnz.
  destruct (size <? sizeof_CS_CodeDirectory) eqn:Es.
  { injection H as <-. contradiction. }
  apply Z.ltb_ge in Es.
  destruct (load_be32 m (cd + blob_magic)) as [magic| |] eqn:Em; cbn in H; try discriminate.
  destruct (magic =? CSMAGIC_CODEDIRECTORY) eqn:Eq; cbn in H.
  2:{ injection H as <-. contradiction. }
  apply Z.eqb_eq in Eq. subst magic.
  destruct (load_be32 m (cd + blob_length)) as [l| |] eqn:El; cbn in H; try discriminate.
  destruct (l >? size) eqn:Eg.
  { injection H as <-. contradiction. }
  injection H as <-.
  pose proof (Zgt_cases l size) as Hc. rewrite Eg in Hc.
  apply load_be32_inv in El as Hr.
  repeat split; auto; lia.
Qed.

Lemma cs_codedirectory_validate_ok (m : buffer) (cd size len : Z) :
  sizeof_CS_CodeDirectory <= size ->
  load_be32 m (cd + blob_magic) = Ret CSMAGIC_CODEDIRECTORY ->
  load_be32 m (cd + blob_length) = Ret len ->
  len <= size ->
  cs_codedirectory_validate m cd size = Ret len.
Proof.
  intros Hs Hm Hl Hle. unfold cs_codedirectory_validate.
  apply Z.ltb_ge in Hs. rewrite Hs, Hm. cbn. rewrite Hl. cbn.
  destruct (len >? size) eqn:Eg; [|reflexivity].
  pose proof (Zgt_cases len size) as Hc. rewrite Eg in Hc. lia.
Qed.

(** C6: [cs_codedirectory_validate] returns a non-zero value only when the
    available size is at least the size of the structure, the big-endian magic
    is the code-directory magic and the declared big-endian length is non-zero
    and at most the available size, and then the value is the declared length;
    a short size, a wrong magic or a length above the size give the failure
    value 0; and the returned length can be strictly smaller than the
    available size. *)
Theorem cs_codedirectory_validate_spec :
  (forall m cd size len,
      cs_codedirectory_validate m cd size = Ret len /\ len <> 0 <->
      sizeof_CS_CodeDirectory <= size /\
      load_be32 m (cd + blob_magic) = Ret CSMAGIC_CODEDIRECTORY /\
      load_be32 m (cd + blob_length) = Ret len /\
      len <> 0 /\ len <= size)
  /\ (forall m cd size,
         size < sizeof_CS_CodeDirectory -> cs_codedirectory_validate m cd size = Ret 0)
  /\ (forall m cd size magic,
         sizeof_CS_CodeDirectory <= size ->
         load_be32 m (cd + blob_magic) = Ret magic ->
         magic <> CSMAGIC_CODEDIRECTORY ->
         cs_codedirectory_validate m cd size = Ret 0)
  /\ (forall m cd size len,
         sizeof_CS_CodeDirectory <= size ->
         load_be32 m (cd + blob_magic) = Ret CSMAGIC_CODEDIRECTORY ->
         load_be32 m (cd + blob_length) = Ret len ->
         size < len ->
         cs_codedirectory_validate m cd size = Ret 0)
  /\ (exists m cd size len,
         cs_codedirectory_validate m cd size = Ret len /\ 0 < len < size).
Proof.
  split; [|split; [|split; [|split]]].
  - intros m cd size len. split.
    + intros [H Hnz]. apply cs_codedirectory_validate_inv in H; auto.
      destruct H as (H1 & H2 & H3 & H4). repeat split; auto; lia.
    + intros (H1 & H2 & H3 & H4 & H5). split; auto.
      apply cs_codedirectory_validate_ok; auto.
  - intros m cd size Hs. unfold cs_codedirectory_validate.
    apply Z.ltb_lt in Hs. rewrite Hs. reflexivity.
  - intros m cd size magic Hs Hm Hne. unfold cs_codedirectory_validate.
    apply Z.ltb_ge in Hs. rewrite Hs, Hm. cbn.
    apply Z.eqb_neq in Hne. rewrite Hne. reflexivity.
  - intros m cd size len Hs Hm Hl Hgt. unfold cs_codedirectory_validate.
    apply Z.ltb_ge in Hs. rewrite Hs, Hm. cbn. rewrite Hl. cbn.
    destruct (len >? size) eqn:Eg; [reflexivity|].
    pose proof (Zgt_cases len size) as Hc. rewrite Eg in Hc. lia.
  - exists (cd_buffer 88 CS_HASHTYPE_SHA256 100), image_base, 100, 88.
    split; [vm_compute; reflexivity | lia].
Qed.

(** C7, as the code has it: a code directory that validation accepts lies in
    an available size of at least the size of the structure, and its declared
    length is positive and at most the available size; the declared length
    itself is not compared with the size of the structure. *)
Theorem cs_codedirectory_validate_bounds (m : buffer) (cd size len : Z) :
  cs_codedirectory_validate m cd size = Ret len ->
  len <> 0 ->
  sizeof_CS_CodeDirectory <= size /\ 0 < len <= size.
Proof.
  intros H Hnz. apply cs_codedirectory_validate_inv in H; auto.
  destruct H as (H1 & _ & _ & H4). auto.
Qed.

Lemma cs_codedirectory_validate_bounds_witness :
  cs_codedirectory_validate (cd_buffer 88 CS_HASHTYPE_SHA256 100) image_base 100 = Ret 88
  /\ sizeof_CS_CodeDirectory <= 100 /\ 0 < 88 <= 100.
Proof.
  split.
  - vm_compute. reflexivity.
  - apply (cs_codedirectory_validate_bounds (cd_buffer 88 CS_HASHTYPE_SHA256 100) image_base).
    + vm_compute. reflexivity.
    + lia.
Defined.

(** C7, as stated, fails: a code directory that declares a length of one byte
    is accepted when [sizeof_CS_CodeDirectory] bytes are available. *)
Lemma cs_codedirectory_validate_accepts_short_length :
  cs_codedirectory_validate (cd_buffer 1 CS_HASHTYPE_SHA1 88) image_base 88 = Ret 1
  /\ 1 <> 0 /\ 1 < sizeof_CS_CodeDirectory.
Proof.
  split; [vm_compute; reflexivity|]. split; [lia | reflexivity].
Qed.

(** ** All-or-nothing output *)

Lemma all_or_nothing_mret_false : all_or_nothing (mret false).
Proof. intros log. right. cbn. split; [discriminate | reflexivity]. Qed.

Lemma all_or_nothing_lift {A : Type} (o : outcome A) (k : A -> M bool) :
  (forall a, all_or_nothing (k a)) -> all_or_nothing (mbind (lift o) k).
Proof.
  intros Hk log. unfold mbind, lift.
  destruct o as [a| |].
  - apply Hk.
  - right. cbn. split; [discriminate | reflexivity].
  - right. cbn. split; [discriminate | reflexivity].
Qed.

Lemma snoc_neq {A : Type} (l : list A) (x : A) : l ++ [x] <> l.
Proof.
  intros H. apply (f_equal (@length A)) in H.
  rewrite length_app in H. cbn in H. lia.
Qed.

Section DigestProperties.

Variable CC_SHA1 : list byte -> list byte.
Variable CC_SHA256 : list byte -> list byte.

Lemma cs_codedirectory_cdhash_all_or_nothing (m : buffer) (cd size : Z) :
  all_or_nothing (cs_codedirectory_cdhash CC_SHA1 CC_SHA256 m cd size).
Proof.
  unfold cs_codedirectory_cdhash.
  apply all_or_nothing_lift. intros len.
  apply all_or_nothing_lift. intros hashType.
  destruct (hashType =? CS_HASHTYPE_SHA1).
  - intros log. unfold cdhash_sha1, mbind, lift, memcpy_cdhash, mret.
    destruct (load_bytes m cd (CC_LONG len)) as [bytes| |].
    + left. eauto.
    + right. cbn. split; [discriminate | reflexivity].
    + right. cbn. split; [discriminate | reflexivity].
  - destruct (hashType =? CS_HASHTYPE_SHA256).
    + intros log. unfold cdhash_sha256, mbind, lift, memcpy_cdhash, mret.
      destruct (load_bytes m cd (CC_LONG len)) as [bytes| |].
      * left. eauto.
      * right. cbn. split; [discriminate | reflexivity].
      * right. cbn. split; [discriminate | reflexivity].
    + apply all_or_nothing_mret_false.
Qed.

Lemma cs_superblob_cdhash_all_or_nothing (m : buffer) (sb size : Z) :
  all_or_nothing (cs_superblob_cdhash CC_SHA1 CC_SHA256 m sb size).
Proof.
  unfold cs_superblob_cdhash.
  apply all_or_nothing_lift. intros count.
  apply all_or_nothing_lift. intros [b|].
  - destruct (best_cd b =? NULL).
    + apply all_or_nothing_mret_false.
    + apply cs_codedirectory_cdhash_all_or_nothing.
  - apply all_or_nothing_mret_false.
Qed.

Lemma csblob_cdhash_all_or_nothing (m : buffer) (blob size : Z) :
  all_or_nothing (csblob_cdhash CC_SHA1 CC_SHA256 m blob size).
Proof.
  unfold csblob_cdhash.
  destruct (size <? sizeof_CS_GenericBlob); [apply all_or_nothing_mret_false|].
  apply all_or_nothing_lift. intros magic.
  apply all_or_nothing_lift. intros len.
  destruct (len >? size); [apply all_or_nothing_mret_false|].
  destruct (magic =? CSMAGIC_EMBEDDED_SIGNATURE).
  - apply all_or_nothing_lift. intros ok.
    destruct (ok =? 0); [apply all_or_nothing_mret_false|].
    apply cs_superblob_cdhash_all_or_nothing.
  - destruct (magic =? CSMAGIC_CODEDIRECTORY); [|apply all_or_nothing_mret_false].
    apply all_or_nothing_lift. intros ok.
    destruct (ok =? 0); [apply all_or_nothing_mret_false|].
    apply cs_codedirectory_cdhash_all_or_nothing.
Qed.

Lemma compute_cdhash_macho_all_or_nothing (fuel : nat) (m : buffer) (mh size : Z) :
  all_or_nothing (compute_cdhash_macho CC_SHA1 CC_SHA256 fuel m mh size).
Proof.
  unfold compute_cdhash_macho.
  apply all_or_nothing_lift. intros cs_cmd.
  destruct (cs_cmd =? NULL); [apply all_or_nothing_mret_false|].
  apply all_or_nothing_lift. intros dataoff.
  apply all_or_nothing_lift. intros datasize.
  match goal with |- all_or_nothing (if ?c then _ else _) => destruct c end.
  - apply all_or_nothing_mret_false.
  - apply csblob_cdhash_all_or_nothing.
Qed.

Lemma compute_cdhash_all_or_nothing (fuel : nat) (m : buffer) (file size : Z) :
  all_or_nothing (compute_cdhash CC_SHA1 CC_SHA256 fuel m file size).
Proof.
  unfold compute_cdhash.
  apply all_or_nothing_lift. intros [|]; [|apply all_or_nothing_mret_false].
  apply all_or_nothing_lift. intros valid.
  destruct (negb valid); [apply all_or_nothing_mret_false|].
  apply compute_cdhash_macho_all_or_nothing.
Qed.

(** C5: for every buffer, size and fuel, the log of writes through [cdhash]
    grows if and only if [compute_cdhash] returns [true]; when it returns
    [false] (or does not return at all) the log is as it was, so no byte of
    the output buffer is written; and when it returns [true] the one write is
    a digest cut to [CS_CDHASH_LEN] bytes. *)
Theorem compute_cdhash_writes_iff_true (fuel : nat) (m : buffer) (file size : Z)
    (log : cdhash_log) :
  let r := compute_cdhash CC_SHA1 CC_SHA256 fuel m file size log in
  (snd r <> log <-> fst r = Ret true)
  /\ (fst r <> Ret true -> snd r = log)
  /\ (fst r = Ret true ->
      exists digest, snd r = log ++ [firstn CS_CDHASH_LEN digest]).
Proof.
  intros r. subst r.
  destruct (compute_cdhash_all_or_nothing fuel m file size log) as [[d E]|[Hf Hs]].
  - rewrite E. cbn. split; [|split].
    + split; [reflexivity | intros _; apply snoc_neq].
    + intros H. contradiction.
    + intros _. eauto.
  - split; [|split].
    + split; [intros H; contradiction | intros H; contradiction].
    + intros _. exact Hs.
    + intros H. contradiction.
Qed.

End DigestProperties.

(** ** The signature region of a Mach-O image *)

Lemma signature_region_ok_dec (mh size dataoff datasize : Z) :
  let cs_data := ptr_add mh dataoff in
  let cs_end := ptr_add cs_data datasize in
  (mh <? cs_data) && (cs_data <? cs_end) && (cs_end <=? ptr_add mh size) = true
  <-> signature_region_ok mh size dataoff datasize.
Proof.
  cbv zeta. unfold signature_region_ok.
  rewrite !andb_true_iff, !Z.ltb_lt, Z.leb_le. tauto.
Qed.

Lemma signature_region_ok_no_wrap (mh size dataoff datasize : Z) :
  0 < mh -> 0 <= size -> mh + size < 2 ^ 64 ->
  0 <= dataoff < 2 ^ 32 -> 0 <= datasize < 2 ^ 32 ->
  (signature_region_ok mh size dataoff datasize <->
   0 < dataoff /\ 0 < datasize /\ dataoff + datasize <= size).
Proof.
  intros Hmh Hsz Hend Hoff Hds. unfold signature_region_ok, ptr_add.
  rewrite (Z.mod_small (mh + size)) by lia.
  assert (H64 : 2 ^ 64 = 18446744073709551616) by reflexivity.
  assert (H32 : 2 ^ 32 = 4294967296) by reflexivity.
  rewrite H64, H32 in *.
  destruct (Z_lt_le_dec (mh + dataoff) 18446744073709551616) as [Hs|Hw].
  - rewrite (Z.mod_small (mh + dataoff)) by lia.
    destruct (Z_lt_le_dec (mh + dataoff + datasize) 18446744073709551616) as [Hs'|Hw'].
    + rewrite (Z.mod_small (mh + dataoff + datasize)) by lia. lia.
    + replace ((mh + dataoff + datasize) mod 18446744073709551616)
        with (mh + dataoff + datasize - 18446744073709551616).
      * lia.
      * apply Z.mod_unique with (q := 1); lia.
  - replace ((mh + dataoff) mod 18446744073709551616)
      with (mh + dataoff - 18446744073709551616).
    + lia.
    + apply Z.mod_unique with (q := 1); lia.
Qed.

Section MachoProperties.

Variable CC_SHA1 : list byte -> list byte.
Variable CC_SHA256 : list byte -> list byte.

(** C9: [compute_cdhash_macho] returns [false] when no code-signature load
    command is found; when one is found it returns [false] unless
    [mh < cs_data < cs_end <= mh + size] holds for the pointers it computes
    from [dataoff] and [datasize], and only then calls [csblob_cdhash] on
    that region.  For a buffer that does not reach the end of the address
    space the test says [0 < dataoff], [0 < datasize] and
    [dataoff + datasize <= size]: an offset or a size of zero, a region that
    wraps around and a region that ends past the buffer are all rejected. *)
Theorem compute_cdhash_macho_region (fuel : nat) (m : buffer) (mh size : Z)
    (log : cdhash_log) :
  (macho_find_load_command fuel m mh size LC_CODE_SIGNATURE NULL = Ret NULL ->
   compute_cdhash_macho CC_SHA1 CC_SHA256 fuel m mh size log = (Ret false, log))
  /\ (forall cs_cmd dataoff datasize,
         macho_find_load_command fuel m mh size LC_CODE_SIGNATURE NULL = Ret cs_cmd ->
         cs_cmd <> NULL ->
         load32 m (cs_cmd + lc_dataoff) = Ret dataoff ->
         load32 m (cs_cmd + lc_datasize) = Ret datasize ->
         (~ signature_region_ok mh size dataoff datasize ->
          compute_cdhash_macho CC_SHA1 CC_SHA256 fuel m mh size log = (Ret false, log))
         /\ (signature_region_ok mh size dataoff datasize ->
             compute_cdhash_macho CC_SHA1 CC_SHA256 fuel m mh size log
             = csblob_cdhash CC_SHA1 CC_SHA256 m (ptr_add mh dataoff)
                 (ptr_add (ptr_add mh dataoff) datasize - ptr_add mh dataoff) log)
         /\ (0 < mh -> 0 <= size -> mh + size < 2 ^ 64 ->
             (signature_region_ok mh size dataoff datasize <->
              0 < dataoff /\ 0 < datasize /\ dataoff + datasize <= size))).
Proof.
  split.
  - intros Hf. unfold compute_cdhash_macho, mbind, lift. rewrite Hf.
    reflexivity.
  - intros cs_cmd dataoff datasize Hf Hnn Hoff Hds.
    assert (E : compute_cdhash_macho CC_SHA1 CC_SHA256 fuel m mh size log
                = if negb ((mh <? ptr_add mh dataoff)
                           && (ptr_add mh dataoff <? ptr_add (ptr_add mh dataoff) datasize)
                           && (ptr_add (ptr_add mh dataoff) datasize <=? ptr_add mh size))
                  then (Ret false, log)
                  else csblob_cdhash CC_SHA1 CC_SHA256 m (ptr_add mh dataoff)
                         (ptr_add (ptr_add mh dataoff) datasize - ptr_add mh dataoff) log).
    { unfold compute_cdhash_macho, mbind, lift. rewrite Hf.
      apply Z.eqb_neq in Hnn. rewrite Hnn, Hoff, Hds.
      match goal with |- context [negb ?c] => destruct c end; reflexivity. }
    pose proof (signature_region_ok_dec mh size dataoff datasize) as Hdec.
    cbv zeta in Hdec.
    split; [|split].
    + intros Hno. rewrite E.
      match goal with |- context [negb ?c] => destruct c end; [|reflexivity].
      exfalso. apply Hno, Hdec. reflexivity.
    + intros Hok. rewrite E. apply Hdec in Hok. rewrite Hok. reflexivity.
    + intros Hmh Hsz Hend.
      apply load32_inv in Hoff as (_ & _ & Hoff).
      apply load32_inv in Hds as (_ & _ & Hds).
      apply signature_region_ok_no_wrap; assumption.
Qed.

End MachoProperties.

(** The signed test image meets every hypothesis of C9's second part: its
    signature region, 204 bytes at offset 64, is handed to [csblob_cdhash]. *)
Lemma compute_cdhash_macho_region_witness :
  signature_region_ok image_base 4096 64 204
  /\ compute_cdhash_macho toy_sha1 toy_sha256 4
       (signed_image (two_directories CS_HASHTYPE_SHA1 CS_HASHTYPE_SHA256))
       image_base 4096 []
     = csblob_cdhash toy_sha1 toy_sha256
         (signed_image (two_directories CS_HASHTYPE_SHA1 CS_HASHTYPE_SHA256))
         (ptr_add image_base 64)
         (ptr_add (ptr_add image_base 64) 204 - ptr_add image_base 64) [].
Proof.
  assert (Hok : signature_region_ok image_base 4096 64 204)
    by (vm_compute; repeat split; discriminate).
  split; [exact Hok|].
  apply (proj2 (compute_cdhash_macho_region toy_sha1 toy_sha256 4
                  (signed_image (two_directories CS_HASHTYPE_SHA1 CS_HASHTYPE_SHA256))
                  image_base 4096 []) (image_base + 32) 64 204).
  - vm_compute. reflexivity.
  - discriminate.
  - vm_compute. reflexivity.
  - vm_compute. reflexivity.
  - exact Hok.
Defined.

(** ** The load-command walk *)

(** A load command of size 0 inside the table is a fixed point of the walk. *)
Lemma macho_validate_loop_stuck (m : buffer) (lc_p lc_end : Z) :
  lc_p < lc_end ->
  load32 m (lc_p + lc_cmdsize) = Ret 0 ->
  ptr_add lc_p 0 = lc_p ->
  forall fuel, macho_validate_loop fuel m lc_p lc_end = OutOfFuel.
Proof.
  intros Hlt Hload Hadd fuel. induction fuel as [|fuel IH].
  - reflexivity.
  - cbn [macho_validate_loop].
    apply Z.ltb_lt in Hlt as Hb. rewrite Hb, Hload. cbn [obind].
    change (0 >=? 2147483648) with false. cbv iota zeta. rewrite Hadd.
    assert (Hg : (lc_p >? lc_end) = false).
    { pose proof (Zgt_cases lc_p lc_end) as Hc.
      destruct (lc_p >? lc_end); [lia | reflexivity]. }
    rewrite Hg. exact IH.
Qed.

Lemma load32_returns_or_faults (m : buffer) (a : Z) : load32 m a <> OutOfFuel.
Proof.
  unfold load32, load_bytes. destruct (in_bounds m a 4); cbn; discriminate.
Qed.

(** The walk spins on nothing else: when no load command that it can meet
    has a [cmdsize] of 0, fuel above the length of the table is enough for it
    to finish (with a result or a fault).  The end of the table must leave
    room for one [cmdsize] below the end of the address space. *)
Lemma macho_validate_loop_finishes (m : buffer) (lc_end : Z) :
  lc_end + 2 ^ 31 <= 2 ^ 64 ->
  forall (fuel : nat) (lc_p : Z),
    0 <= lc_p ->
    (Z.to_nat (lc_end - lc_p) < fuel)%nat ->
    (forall p, lc_p <= p < lc_end -> load32 m (p + lc_cmdsize) <> Ret 0) ->
    macho_validate_loop fuel m lc_p lc_end <> OutOfFuel.
Proof.
  intros Hroom. induction fuel as [|fuel IH]; intros lc_p Hp Hfuel Hnz.
  - lia.
  - cbn [macho_validate_loop].
    destruct (lc_p <? lc_end) eqn:El; [|discriminate].
    apply Z.ltb_lt in El.
    destruct (load32 m (lc_p + lc_cmdsize)) as [cmdsize| |] eqn:Ec;
      cbn [obind]; try discriminate.
    2:{ exfalso. apply (load32_returns_or_faults _ _ Ec). }
    pose proof (Zge_cases cmdsize 2147483648) as Hc.
    destruct (cmdsize >=? 2147483648); [discriminate|].
    cbv zeta.
    assert (Hne : cmdsize <> 0).
    { intros ->. apply (Hnz lc_p); [lia | exact Ec]. }
    apply load32_inv in Ec as (_ & _ & Hr).
    assert (En : ptr_add lc_p cmdsize = lc_p + cmdsize).
    { unfold ptr_add. apply Z.mod_small.
      change (2 ^ 31) with 2147483648 in Hroom. lia. }
    rewrite En.
    destruct (lc_p + cmdsize >? lc_end); [discriminate|].
    apply IH.
    + lia.
    + lia.
    + intros p Hrange. apply Hnz. lia.
Qed.

Section ImageRuns.

Variable CC_SHA1 : list byte -> list byte.
Variable CC_SHA256 : list byte -> list byte.

(** C2, on the code: [spin_image] has a header that [macho_validate] accepts
    ([sizeofcmds = 8 <= size]) and one load command whose [cmdsize] is 0; the
    walk never advances, so whatever the fuel [macho_validate] and with it
    [compute_cdhash] do not return. *)
Theorem compute_cdhash_spins_on_zero_cmdsize :
  macho_identify spin_image (base spin_image) (buf_size spin_image) = Ret true
  /\ load32 spin_image (base spin_image + mh_sizeofcmds) = Ret 8
  /\ load32 spin_image (base spin_image + sizeof_mach_header_64 + lc_cmdsize) = Ret 0
  /\ forall fuel,
      macho_validate fuel spin_image (base spin_image) (buf_size spin_image) = OutOfFuel
      /\ run_compute_cdhash CC_SHA1 CC_SHA256 fuel spin_image = (OutOfFuel, []).
Proof.
  assert (Hid : macho_identify spin_image (base spin_image) (buf_size spin_image)
                = Ret true) by (vm_compute; reflexivity).
  assert (Hsz : load32 spin_image (base spin_image + mh_sizeofcmds) = Ret 8)
    by (vm_compute; reflexivity).
  assert (Hcs : load32 spin_image (base spin_image + sizeof_mach_header_64 + lc_cmdsize)
                = Ret 0) by (vm_compute; reflexivity).
  split; [exact Hid|]. split; [exact Hsz|]. split; [exact Hcs|].
  intros fuel.
  assert (Hv : macho_validate fuel spin_image (base spin_image) (buf_size spin_image)
               = OutOfFuel).
  { unfold macho_validate. rewrite Hid. cbn [obind negb]. rewrite Hsz. cbn [obind].
    replace (8 >? buf_size spin_image) with false by (vm_compute; reflexivity).
    cbv zeta. apply macho_validate_loop_stuck.
    - vm_compute. reflexivity.
    - replace (ptr_add (base spin_image) sizeof_mach_header_64)
        with (base spin_image + sizeof_mach_header_64) by (vm_compute; reflexivity).
      exact Hcs.
    - vm_compute. reflexivity. }
  split; [exact Hv|].
  unfold run_compute_cdhash, compute_cdhash, mbind, lift.
  rewrite Hid, Hv. reflexivity.
Qed.

(** C1, on the code: [oob_image] is 4096 bytes long and declares
    [sizeofcmds = 4096], which passes the test [sizeofcmds > size] although
    the table starts after the 32-byte header.  Its first load command ends at
    offset 4092, inside the table, so the walk of [macho_validate] reads the
    next [cmdsize] at offsets 4096 to 4099, outside the buffer. *)
Theorem compute_cdhash_reads_past_the_buffer :
  load32 oob_image (base oob_image + mh_sizeofcmds) = Ret (buf_size oob_image)
  /\ load32 oob_image (base oob_image + sizeof_mach_header_64 + lc_cmdsize) = Ret 4060
  /\ in_bounds oob_image (base oob_image + sizeof_mach_header_64 + 4060 + lc_cmdsize) 4 = false
  /\ forall fuel,
      macho_validate (S (S fuel)) oob_image (base oob_image) (buf_size oob_image) = Fault
      /\ run_compute_cdhash CC_SHA1 CC_SHA256 (S (S fuel)) oob_image = (Fault, []).
Proof.
  split; [vm_compute; reflexivity|].
  split; [vm_compute; reflexivity|].
  split; [vm_compute; reflexivity|].
  intros fuel.
  assert (Hv : macho_validate (S (S fuel)) oob_image (base oob_image) (buf_size oob_image)
               = Fault) by (vm_compute; reflexivity).
  split; [exact Hv|].
  assert (Hid : macho_identify oob_image (base oob_image) (buf_size oob_image)
                = Ret true) by (vm_compute; reflexivity).
  unfold run_compute_cdhash, compute_cdhash, mbind, lift.
  rewrite Hid, Hv. reflexivity.
Qed.

(** A second read past the buffer, with a table that fits the file:
    [macho_validate] accepts [short_command_image], whose last command is an
    eight-byte [LC_CODE_SIGNATURE]; [compute_cdhash_macho] then reads its
    [dataoff] field at offset 4096. *)
Lemma compute_cdhash_macho_reads_past_the_buffer :
  macho_validate 3 short_command_image (base short_command_image)
    (buf_size short_command_image) = Ret true
  /\ run_compute_cdhash CC_SHA1 CC_SHA256 3 short_command_image = (Fault, []).
Proof.
  split; vm_compute; reflexivity.
Qed.

(** What the short length of C7 means for a whole image: the one-byte code
    directory of [short_directory_image] is selected, and the cdhash is the
    digest of its first byte alone. *)
Lemma compute_cdhash_hashes_short_directory :
  run_compute_cdhash CC_SHA1 CC_SHA256 3 short_directory_image
  = (Ret true, [firstn CS_CDHASH_LEN (CC_SHA256 [xfa])]).
Proof.
  vm_compute. reflexivity.
Qed.

(** The whole pipeline on a well-formed image: the signature of
    [signed_image] holds a SHA1 and a SHA256 code directory, and the cdhash is
    the truncated SHA-256 digest of the second. *)
Lemma compute_cdhash_signed_image :
  run_compute_cdhash CC_SHA1 CC_SHA256 3
    (signed_image (two_directories CS_HASHTYPE_SHA1 CS_HASHTYPE_SHA256))
  = (Ret true, [firstn CS_CDHASH_LEN (CC_SHA256 (code_directory 88 CS_HASHTYPE_SHA256))]).
Proof.
  vm_compute. reflexivity.
Qed.

End ImageRuns.

(** ** The rank of a hash type *)

Lemma rank_of_cases (h : Z) :
  rank_of h =
  if h =? CS_HASHTYPE_SHA1 then 1
  else if h =? CS_HASHTYPE_SHA256_TRUNCATED then 2
  else if h =? CS_HASHTYPE_SHA256 then 3
  else if h =? CS_HASHTYPE_SHA384 then 4
  else 0.
Proof.
  unfold rank_of, ranked_hash_types. cbn [rank_loop].
  rewrite (Z.eqb_sym CS_HASHTYPE_SHA1), (Z.eqb_sym CS_HASHTYPE_SHA256_TRUNCATED),
    (Z.eqb_sym CS_HASHTYPE_SHA256), (Z.eqb_sym CS_HASHTYPE_SHA384).
  reflexivity.
Qed.

Lemma rank_of_range (h : Z) : 0 <= rank_of h <= 4.
Proof.
  rewrite rank_of_cases.
  repeat match goal with |- context [if ?c then _ else _] => destruct c end; lia.
Qed.


Lemma cs_codedirectory_rank_eq (m : buffer) (cd : Z) :
  cs_codedirectory_rank m cd = (h <- load8 m (cd + cd_hashType) ;; Ret (rank_of h)).
Proof. reflexivity. Qed.

(** ** The scan of the super-blob index *)

(** The loop of [cs_superblob_cdhash] computes the selection over the slots. *)
Lemma cs_superblob_scan_select (n : nat) (m : buffer) (sb size : Z) :
  forall (i : Z) (b : best) (slots : list slot),
    slots_from n m sb size i = Ret slots ->
    cs_superblob_scan n m sb size i b = Ret (select slots b).
Proof.
  induction n as [|n IH]; intros i b slots H.
  - cbn in H. injection H as <-. reflexivity.
  - cbn [slots_from] in H. cbn [cs_superblob_scan]. unfold classify in H.
    cbv zeta in *.
    destruct (load_be32 m (index_at sb i + bi_type))
      as [type| |]; cbn [obind] in *; try discriminate.
    destruct (load_be32 m (index_at sb i + bi_offset))
      as [offset| |]; cbn [obind] in *; try discriminate.
    destruct (offset >? size).
    { cbn [obind] in H.
      destruct (slots_from n m sb size (i + 1)); cbn [obind] in H; try discriminate.
      injection H as <-. reflexivity. }
    destruct (is_codedirectory_slot type).
    + destruct (cs_codedirectory_validate m (ptr_add sb offset) (size - offset))
        as [cd_size| |]; cbn [obind] in *; try discriminate.
      destruct (cd_size =? 0).
      { cbn [obind] in H.
        destruct (slots_from n m sb size (i + 1)); cbn [obind] in H; try discriminate.
        injection H as <-. reflexivity. }
      rewrite cs_codedirectory_rank_eq.
      destruct (load8 m (ptr_add sb offset + cd_hashType)) as [h| |];
        cbn [obind] in *; try discriminate.
      destruct (slots_from n m sb size (i + 1)) as [rest| |] eqn:Er;
        cbn [obind] in H; try discriminate.
      injection H as <-.
      rewrite (IH _ _ rest Er). reflexivity.
    + cbn [obind] in H.
      destruct (slots_from n m sb size (i + 1)) as [rest| |] eqn:Er;
        cbn [obind] in H; try discriminate.
      injection H as <-.
      rewrite (IH _ _ rest Er). reflexivity.
Qed.

(** ** The selection *)

Lemma select_rejected (slots : list slot) :
  In OutOfRange slots \/ In Malformed slots ->
  forall b, select slots b = None.
Proof.
  induction slots as [|s rest IH]; intros H b.
  - destruct H as [[]|[]].
  - destruct s; cbn [select]; try reflexivity.
    + apply IH. destruct H as [[H|H]|[H|H]]; try discriminate; auto.
    + apply IH. destruct H as [[H|H]|[H|H]]; try discriminate; auto.
Qed.

Lemma select_accepted (slots : list slot) :
  Forall (fun s => rejected s = false) slots ->
  forall b, select slots b = Some (fold_left prefer slots b).
Proof.
  induction 1 as [|s rest Hs _ IH]; intros b.
  - reflexivity.
  - destruct s; cbn in Hs; try discriminate; cbn [select fold_left]; apply IH.
Qed.

Lemma prefer_keeps (b : best) (s : slot) :
  (forall cd len h, s = Candidate cd len h -> rank_of h <= best_cd_rank b) ->
  prefer b s = b.
Proof.
  intros H. destruct s as [| | |cd len h]; try reflexivity.
  cbn [prefer]. specialize (H cd len h eq_refl).
  pose proof (Zgt_cases (rank_of h) (best_cd_rank b)) as Hc.
  destruct (rank_of h >? best_cd_rank b); [lia | reflexivity].
Qed.

Lemma prefer_takes (b : best) (cd len h : Z) :
  best_cd_rank b < rank_of h ->
  prefer b (Candidate cd len h)
  = {| best_cd := cd; best_cd_rank := rank_of h; best_cd_size := len |}.
Proof.
  intros H. cbn [prefer].
  pose proof (Zgt_cases (rank_of h) (best_cd_rank b)) as Hc.
  destruct (rank_of h >? best_cd_rank b); [reflexivity | lia].
Qed.

(** Candidates that do not outrank the running best leave it alone. *)
Lemma fold_prefer_keeps (slots : list slot) (b : best) :
  (forall cd len h, In (Candidate cd len h) slots -> rank_of h <= best_cd_rank b) ->
  fold_left prefer slots b = b.
Proof.
  induction slots as [|s rest IH]; intros H.
  - reflexivity.
  - cbn [fold_left]. rewrite prefer_keeps.
    + apply IH. intros cd len h Hin. apply (H cd len h). right. exact Hin.
    + intros cd len h ->. apply (H cd len h). left. reflexivity.
Qed.

(** Candidates below a rank leave the running best below that rank. *)
Lemma fold_prefer_below (slots : list slot) (r : Z) :
  (forall cd len h, In (Candidate cd len h) slots -> rank_of h < r) ->
  forall b, best_cd_rank b < r -> best_cd_rank (fold_left prefer slots b) < r.
Proof.
  induction slots as [|s rest IH]; intros H b Hb.
  - exact Hb.
  - cbn [fold_left]. apply IH.
    + intros cd len h Hin. apply (H cd len h). right. exact Hin.
    + destruct s as [| | |cd len h]; try exact Hb.
      cbn [prefer]. destruct (rank_of h >? best_cd_rank b); [|exact Hb].
      cbn. apply (H cd len h). left. reflexivity.
Qed.

(** The first candidate of the greatest rank is the one selected. *)
Lemma fold_prefer_first_max (pre post : list slot) (cd len h : Z) (b : best) :
  best_cd_rank b < rank_of h ->
  (forall cd' len' h', In (Candidate cd' len' h') pre -> rank_of h' < rank_of h) ->
  (forall cd' len' h', In (Candidate cd' len' h') post -> rank_of h' <= rank_of h) ->
  fold_left prefer (pre ++ Candidate cd len h :: post) b
  = {| best_cd := cd; best_cd_rank := rank_of h; best_cd_size := len |}.
Proof.
  intros Hb Hpre Hpost.
  rewrite fold_left_app. cbn [fold_left].
  rewrite prefer_takes by (apply fold_prefer_below; assumption).
  apply fold_prefer_keeps. exact Hpost.
Qed.

(** The selected best is the initial one or a candidate that outranks it. *)
Lemma fold_prefer_origin (slots : list slot) (b : best) :
  fold_left prefer slots b = b
  \/ exists cd len h,
      In (Candidate cd len h) slots
      /\ best_cd_rank b < rank_of h
      /\ fold_left prefer slots b
         = {| best_cd := cd; best_cd_rank := rank_of h; best_cd_size := len |}.
Proof.
  revert b. induction slots as [|s rest IH]; intros b.
  - left. reflexivity.
  - cbn [fold_left].
    assert (Hmono : best_cd_rank b <= best_cd_rank (prefer b s)).
    { destruct s as [| | |cd len h]; cbn [prefer]; try lia.
      pose proof (Zgt_cases (rank_of h) (best_cd_rank b)) as Hc.
      destruct (rank_of h >? best_cd_rank b); cbn [best_cd_rank]; lia. }
    destruct (IH (prefer b s)) as [E|(cd & len & h & Hin & Hlt & E)].
    + rewrite E. destruct s as [| | |cd len h]; try (left; reflexivity).
      cbn [prefer]. pose proof (Zgt_cases (rank_of h) (best_cd_rank b)) as Hc.
      destruct (rank_of h >? best_cd_rank b); [|left; reflexivity].
      right. exists cd, len, h.
      split; [left; reflexivity|]. split; [lia | reflexivity].
    + right. exists cd, len, h.
      split; [right; exact Hin|]. split; [lia | exact E].
Qed.

(** The selected best has the greatest rank. *)
Lemma fold_prefer_max (slots : list slot) (b : best) :
  best_cd_rank b <= best_cd_rank (fold_left prefer slots b)
  /\ forall cd len h,
      In (Candidate cd len h) slots ->
      rank_of h <= best_cd_rank (fold_left prefer slots b).
Proof.
  revert b. induction slots as [|s rest IH]; intros b.
  - split; [cbn; lia | intros ? ? ? []].
  - cbn [fold_left]. destruct (IH (prefer b s)) as [H1 H2].
    assert (Hp : best_cd_rank b <= best_cd_rank (prefer b s)
                 /\ forall cd len h, s = Candidate cd len h ->
                                     rank_of h <= best_cd_rank (prefer b s)).
    { destruct s as [| | |cd len h]; cbn [prefer];
        try (split; [lia | intros ? ? ? ?; discriminate]).
      pose proof (Zgt_cases (rank_of h) (best_cd_rank b)) as Hc.
      destruct (rank_of h >? best_cd_rank b); cbn [best_cd_rank].
      - split; [lia | intros ? ? h' E; injection E as _ _ E; subst h'; lia].
      - split; [lia | intros ? ? h' E; injection E as _ _ E; subst h'; lia]. }
    destruct Hp as [Hp1 Hp2]. split; [lia|].
    intros cd len h [->|Hin].
    + specialize (Hp2 cd len h eq_refl). lia.
    + apply (H2 cd len h Hin).
Qed.

(** Only the candidates count. *)
Lemma fold_prefer_filter (slots : list slot) (b : best) :
  fold_left prefer slots b = fold_left prefer (filter is_candidate slots) b.
Proof.
  revert b. induction slots as [|s rest IH]; intros b.
  - reflexivity.
  - destruct s; cbn [filter is_candidate fold_left]; apply IH.
Qed.

(** ** What the slots say about the buffer *)

Lemma slots_from_nth (n : nat) (m : buffer) (sb size : Z) :
  forall (i : Z) (slots : list slot),
    slots_from n m sb size i = Ret slots ->
    length slots = n
    /\ forall j, (j < n)%nat ->
                 exists s, nth_error slots j = Some s
                           /\ classify m sb size (i + Z.of_nat j) = Ret s.
Proof.
  induction n as [|n IH]; intros i slots H.
  - cbn in H. injection H as <-. split; [reflexivity | intros j Hj; lia].
  - cbn [slots_from] in H.
    destruct (classify m sb size i) as [s| |] eqn:Ec; cbn [obind] in H; try discriminate.
    destruct (slots_from n m sb size (i + 1)) as [rest| |] eqn:Er;
      cbn [obind] in H; try discriminate.
    injection H as <-. destruct (IH _ _ Er) as [Hlen Hnth].
    split; [cbn; congruence|].
    intros [|j] Hj.
    + exists s. cbn. rewrite Z.add_0_r. auto.
    + destruct (Hnth j ltac:(lia)) as (s' & Hs' & Hc').
      exists s'. cbn [nth_error]. split; [exact Hs'|].
      rewrite <- Hc'. f_equal. lia.
Qed.

Lemma slots_from_In (n : nat) (m : buffer) (sb size i : Z) (slots : list slot) (s : slot) :
  slots_from n m sb size i = Ret slots ->
  In s slots ->
  exists j, i <= j < i + Z.of_nat n /\ classify m sb size j = Ret s.
Proof.
  intros H Hin. destruct (slots_from_nth _ _ _ _ _ _ H) as [Hlen Hnth].
  apply In_nth_error in Hin as [j Hj].
  assert (Hlt : (j < n)%nat).
  { rewrite <- Hlen. apply nth_error_Some. congruence. }
  destruct (Hnth j Hlt) as (s' & Hs' & Hc).
  exists (i + Z.of_nat j). split; [lia|]. congruence.
Qed.

(** A candidate slot records a code directory that validation accepted, with
    the length and hash type that the buffer holds at its address. *)
Lemma classify_candidate (m : buffer) (sb size i cd len h : Z) :
  classify m sb size i = Ret (Candidate cd len h) ->
  exists type offset,
    load_be32 m (index_at sb i + bi_type) = Ret type
    /\ load_be32 m (index_at sb i + bi_offset) = Ret offset
    /\ is_codedirectory_slot type = true
    /\ 0 <= offset <= size
    /\ cd = ptr_add sb offset
    /\ cs_codedirectory_validate m cd (size - offset) = Ret len
    /\ len <> 0
    /\ load8 m (cd + cd_hashType) = Ret h.
Proof.
  unfold classify. cbv zeta. intros H.
  destruct (load_be32 m (index_at sb i + bi_type)) as [type| |] eqn:Et;
    cbn [obind] in H; try discriminate.
  destruct (load_be32 m (index_at sb i + bi_offset)) as [offset| |] eqn:Eo;
    cbn [obind] in H; try discriminate.
  pose proof (Zgt_cases offset size) as Hc.
  destruct (offset >? size); try discriminate.
  destruct (is_codedirectory_slot type) eqn:Eq; try discriminate.
  destruct (cs_codedirectory_validate m (ptr_add sb offset) (size - offset))
    as [cd_size| |] eqn:Ev; cbn [obind] in H; try discriminate.
  destruct (cd_size =? 0) eqn:Ez; try discriminate.
  destruct (load8 m (ptr_add sb offset + cd_hashType)) as [h'| |] eqn:Eh;
    cbn [obind] in H; try discriminate.
  injection H as <- <- <-.
  apply load_be32_inv in Eo as Hr. apply Z.eqb_neq in Ez.
  exists type, offset. repeat split; auto; lia.
Qed.

Lemma classify_out_of_range (m : buffer) (sb size i type offset : Z) :
  load_be32 m (index_at sb i + bi_type) = Ret type ->
  load_be32 m (index_at sb i + bi_offset) = Ret offset ->
  size < offset ->
  classify m sb size i = Ret OutOfRange.
Proof.
  intros Et Eo Hgt. unfold classify. cbv zeta. rewrite Et, Eo. cbn [obind].
  pose proof (Zgt_cases offset size) as Hc.
  destruct (offset >? size); [reflexivity | lia].
Qed.

Lemma classify_malformed (m : buffer) (sb size i type offset : Z) :
  load_be32 m (index_at sb i + bi_type) = Ret type ->
  load_be32 m (index_at sb i + bi_offset) = Ret offset ->
  offset <= size ->
  is_codedirectory_slot type = true ->
  cs_codedirectory_validate m (ptr_add sb offset) (size - offset) = Ret 0 ->
  classify m sb size i = Ret Malformed.
Proof.
  intros Et Eo Hle Hq Hv. unfold classify. cbv zeta. rewrite Et, Eo. cbn [obind].
  pose proof (Zgt_cases offset size) as Hc.
  destruct (offset >? size); [lia|].
  rewrite Hq, Hv. reflexivity.
Qed.

(** The slot of an entry is among the slots of the super-blob. *)
Lemma superblob_slots_classify (m : buffer) (sb size count i : Z)
    (slots : list slot) (s : slot) :
  superblob_slots m sb size = Ret slots ->
  load_be32 m (sb + sb_count) = Ret count ->
  0 <= i < count ->
  classify m sb size i = Ret s ->
  In s slots.
Proof.
  unfold superblob_slots. intros H Hc Hi Hs. rewrite Hc in H. cbn [obind] in H.
  destruct (slots_from_nth _ _ _ _ _ _ H) as [_ Hnth].
  destruct (Hnth (Z.to_nat i) ltac:(lia)) as (s' & Hs' & Hc').
  cbn in Hc'. rewrite Z2Nat.id in Hc' by lia.
  apply nth_error_In with (n := Z.to_nat i). congruence.
Qed.

Lemma superblob_slots_candidate (m : buffer) (sb size cd len h : Z) (slots : list slot) :
  superblob_slots m sb size = Ret slots ->
  In (Candidate cd len h) slots ->
  exists offset,
    0 <= offset <= size
    /\ cd = ptr_add sb offset
    /\ sizeof_CS_CodeDirectory <= size - offset
    /\ 0 < len <= size - offset
    /\ load_be32 m (cd + blob_length) = Ret len
    /\ load8 m (cd + cd_hashType) = Ret h.
Proof.
  unfold superblob_slots. intros H Hin.
  destruct (load_be32 m (sb + sb_count)) as [count| |]; cbn [obind] in H; try discriminate.
  destruct (slots_from_In _ _ _ _ _ _ _ H Hin) as (j & _ & Hc).
  apply classify_candidate in Hc
    as (type & offset & _ & _ & _ & Ho & Hcd & Hv & Hnz & Hh).
  apply cs_codedirectory_validate_inv in Hv as (Hs & _ & Hl & Hlen); [|exact Hnz].
  exists offset. repeat split; auto; lia.
Qed.

(** Inside a well-placed buffer the address of a candidate is its offset from
    the super-blob, it is not [NULL], and its declared bytes can be read. *)
Lemma candidate_in_region (m : buffer) (sb size offset len : Z) :
  region_in_buffer m sb size ->
  0 <= offset <= size ->
  0 < len <= size - offset ->
  ptr_add sb offset = sb + offset
  /\ ptr_add sb offset <> NULL
  /\ exists bytes, load_bytes m (ptr_add sb offset) len = Ret bytes.
Proof.
  intros ((Hb & He) & Hlo & Hhi) Ho Hl.
  assert (E : ptr_add sb offset = sb + offset).
  { unfold ptr_add. apply Z.mod_small. lia. }
  rewrite E. split; [reflexivity|]. split; [unfold NULL; lia|].
  apply load_bytes_ok; lia.
Qed.

Section SuperBlobProperties.

Variable CC_SHA1 : list byte -> list byte.
Variable CC_SHA256 : list byte -> list byte.

Lemma CC_LONG_small (m : buffer) (a len : Z) :
  load_be32 m a = Ret len -> CC_LONG len = len.
Proof.
  intros H. apply load_be32_inv in H as (_ & _ & Hr).
  unfold CC_LONG. apply Z.mod_small. exact Hr.
Qed.

Lemma cs_codedirectory_cdhash_sha1 (m : buffer) (cd size len : Z)
    (bytes : list byte) (log : cdhash_log) :
  load_be32 m (cd + blob_length) = Ret len ->
  load8 m (cd + cd_hashType) = Ret CS_HASHTYPE_SHA1 ->
  load_bytes m cd len = Ret bytes ->
  cs_codedirectory_cdhash CC_SHA1 CC_SHA256 m cd size log
  = (Ret true, log ++ [firstn CS_CDHASH_LEN (CC_SHA1 bytes)]).
Proof.
  intros Hl Hh Hb.
  unfold cs_codedirectory_cdhash, cdhash_sha1, mbind, lift, memcpy_cdhash, mret.
  rewrite Hl, Hh, (CC_LONG_small _ _ _ Hl), Hb. reflexivity.
Qed.

Lemma cs_codedirectory_cdhash_sha256 (m : buffer) (cd size len : Z)
    (bytes : list byte) (log : cdhash_log) :
  load_be32 m (cd + blob_length) = Ret len ->
  load8 m (cd + cd_hashType) = Ret CS_HASHTYPE_SHA256 ->
  load_bytes m cd len = Ret bytes ->
  cs_codedirectory_cdhash CC_SHA1 CC_SHA256 m cd size log
  = (Ret true, log ++ [firstn CS_CDHASH_LEN (CC_SHA256 bytes)]).
Proof.
  intros Hl Hh Hb.
  unfold cs_codedirectory_cdhash, cdhash_sha256, mbind, lift, memcpy_cdhash, mret.
  rewrite Hl, Hh, (CC_LONG_small _ _ _ Hl), Hb. reflexivity.
Qed.

Lemma cs_codedirectory_cdhash_unsupported (m : buffer) (cd size len h : Z)
    (log : cdhash_log) :
  load_be32 m (cd + blob_length) = Ret len ->
  load8 m (cd + cd_hashType) = Ret h ->
  h <> CS_HASHTYPE_SHA1 ->
  h <> CS_HASHTYPE_SHA256 ->
  cs_codedirectory_cdhash CC_SHA1 CC_SHA256 m cd size log = (Ret false, log).
Proof.
  intros Hl Hh H1 H2.
  unfold cs_codedirectory_cdhash, mbind, lift, mret.
  rewrite Hl, Hh. apply Z.eqb_neq in H1, H2. rewrite H1, H2. reflexivity.
Qed.

(** [cs_superblob_cdhash] hashes what the selection over the slots selects. *)
Lemma cs_superblob_cdhash_select (m : buffer) (sb size : Z) (slots : list slot)
    (log : cdhash_log) :
  superblob_slots m sb size = Ret slots ->
  cs_superblob_cdhash CC_SHA1 CC_SHA256 m sb size log
  = match select slots no_best with
    | None => (Ret false, log)
    | Some b =>
        if best_cd b =? NULL then (Ret false, log)
        else cs_codedirectory_cdhash CC_SHA1 CC_SHA256 m (best_cd b) (best_cd_size b) log
    end.
Proof.
  unfold superblob_slots. intros H.
  unfold cs_superblob_cdhash, mbind, lift.
  destruct (load_be32 m (sb + sb_count)) as [count| |]; cbn [obind] in H; try discriminate.
  rewrite (cs_superblob_scan_select _ _ _ _ _ _ _ H).
  destruct (select slots no_best) as [b|]; [|reflexivity].
  destruct (best_cd b =? NULL); reflexivity.
Qed.

(** C8: in [cs_superblob_cdhash], an index entry whose offset is above [size]
    makes the whole operation return [false], whatever its type and whatever
    the other entries hold; so does a code-directory slot (primary or
    alternate) whose validation gives the failure value, even next to a valid
    code directory; and among valid candidates the first one of the greatest
    rank is the one that is hashed, so a later candidate of equal rank does
    not replace it. *)
Theorem cs_superblob_cdhash_fails_closed (m : buffer) (sb size count : Z)
    (slots : list slot) (log : cdhash_log) :
  superblob_slots m sb size = Ret slots ->
  load_be32 m (sb + sb_count) = Ret count ->
  (forall i type offset,
      0 <= i < count ->
      load_be32 m (index_at sb i + bi_type) = Ret type ->
      load_be32 m (index_at sb i + bi_offset) = Ret offset ->
      size < offset ->
      cs_superblob_cdhash CC_SHA1 CC_SHA256 m sb size log = (Ret false, log))
  /\ (forall i type offset,
         0 <= i < count ->
         load_be32 m (index_at sb i + bi_type) = Ret type ->
         load_be32 m (index_at sb i + bi_offset) = Ret offset ->
         offset <= size ->
         is_codedirectory_slot type = true ->
         cs_codedirectory_validate m (ptr_add sb offset) (size - offset) = Ret 0 ->
         cs_superblob_cdhash CC_SHA1 CC_SHA256 m sb size log = (Ret false, log))
  /\ (forall pre post cd len h,
         slots = pre ++ Candidate cd len h :: post ->
         Forall (fun s => rejected s = false) slots ->
         0 < rank_of h ->
         (forall cd' len' h', In (Candidate cd' len' h') pre -> rank_of h' < rank_of h) ->
         (forall cd' len' h', In (Candidate cd' len' h') post -> rank_of h' <= rank_of h) ->
         cd <> NULL ->
         cs_superblob_cdhash CC_SHA1 CC_SHA256 m sb size log
         = cs_codedirectory_cdhash CC_SHA1 CC_SHA256 m cd len log).
Proof.
  intros Hslots Hcount.
  pose proof (cs_superblob_cdhash_select m sb size slots log Hslots) as E.
  split; [|split].
  - intros i type offset Hi Ht Ho Hgt.
    pose proof (classify_out_of_range _ _ _ _ _ _ Ht Ho Hgt) as Hc.
    pose proof (superblob_slots_classify _ _ _ _ _ _ _ Hslots Hcount Hi Hc) as Hin.
    rewrite E, select_rejected; auto.
  - intros i type offset Hi Ht Ho Hle Hq Hv.
    pose proof (classify_malformed _ _ _ _ _ _ Ht Ho Hle Hq Hv) as Hc.
    pose proof (superblob_slots_classify _ _ _ _ _ _ _ Hslots Hcount Hi Hc) as Hin.
    rewrite E, select_rejected; auto.
  - intros pre post cd len h -> Hacc Hpos Hpre Hpost Hnn.
    rewrite E, select_accepted by exact Hacc.
    rewrite fold_prefer_first_max by (cbn; assumption).
    cbn [best_cd best_cd_size].
    apply Z.eqb_neq in Hnn. rewrite Hnn. reflexivity.
Qed.

(** C10: the scan never selects a code directory of rank 0: what it selects
    is either nothing or a candidate whose rank is positive; so when every
    entry is accepted and every code directory has an unranked hash type,
    nothing is selected and the operation returns [false] as if there were no
    code directory. *)
Theorem cs_superblob_cdhash_unranked (m : buffer) (sb size count : Z)
    (slots : list slot) (log : cdhash_log) :
  superblob_slots m sb size = Ret slots ->
  load_be32 m (sb + sb_count) = Ret count ->
  (forall b,
      cs_superblob_scan (Z.to_nat count) m sb size 0 no_best = Ret (Some b) ->
      b = no_best
      \/ exists cd len h,
          In (Candidate cd len h) slots
          /\ 0 < rank_of h
          /\ b = {| best_cd := cd; best_cd_rank := rank_of h; best_cd_size := len |})
  /\ (Forall (fun s => rejected s = false) slots ->
      (forall cd len h, In (Candidate cd len h) slots -> rank_of h = 0) ->
      cs_superblob_scan (Z.to_nat count) m sb size 0 no_best = Ret (Some no_best)
      /\ cs_superblob_cdhash CC_SHA1 CC_SHA256 m sb size log = (Ret false, log)).
Proof.
  intros Hslots Hcount.
  assert (Hscan : cs_superblob_scan (Z.to_nat count) m sb size 0 no_best
                  = Ret (select slots no_best)).
  { apply cs_superblob_scan_select. unfold superblob_slots in Hslots.
    rewrite Hcount in Hslots. exact Hslots. }
  split.
  - intros b Hb. rewrite Hscan in Hb. injection Hb as Hb.
    assert (Hacc : Forall (fun s => rejected s = false) slots).
    { apply Forall_forall. intros s Hin.
      destruct s; try reflexivity; exfalso;
        rewrite select_rejected in Hb by auto; discriminate. }
    rewrite select_accepted in Hb by exact Hacc. injection Hb as <-.
    destruct (fold_prefer_origin slots no_best) as [->|(cd & len & h & Hin & Hlt & ->)].
    + left. reflexivity.
    + right. exists cd, len, h. cbn in Hlt. auto.
  - intros Hacc Hzero.
    assert (Hsel : select slots no_best = Some no_best).
    { rewrite select_accepted by exact Hacc. f_equal.
      apply fold_prefer_keeps. intros cd len h Hin.
      rewrite (Hzero cd len h Hin). cbn. lia. }
    split; [rewrite Hscan, Hsel; reflexivity|].
    rewrite (cs_superblob_cdhash_select m sb size slots log Hslots), Hsel.
    reflexivity.
Qed.


(** C3, as the code has it: a super-blob inside the buffer whose entries
    are all accepted (every offset is at most [size], and every
    code-directory slot holds a code directory that validation accepts) and
    whose code directories are exactly two, one of hash type SHA1 and one of
    hash type SHA256 in either index order, makes [cs_superblob_cdhash]
    return [true] after writing the first [CS_CDHASH_LEN] bytes of the
    SHA-256 digest of the declared-length bytes of the SHA256 code directory;
    the rank that [cs_codedirectory_rank] returns is the 1-based position of
    the hash type it reads in [SHA1; SHA256_TRUNCATED; SHA256; SHA384], and 0
    for a hash type that is not in that list. *)
Theorem cs_superblob_cdhash_prefers_sha256 :
  (forall (m : buffer) (sb size cd1 len1 cd256 len256 : Z) (slots : list slot)
          (log : cdhash_log),
      region_in_buffer m sb size ->
      superblob_slots m sb size = Ret slots ->
      Forall (fun s => rejected s = false) slots ->
      filter is_candidate slots
      = [Candidate cd1 len1 CS_HASHTYPE_SHA1; Candidate cd256 len256 CS_HASHTYPE_SHA256]
      \/ filter is_candidate slots
         = [Candidate cd256 len256 CS_HASHTYPE_SHA256; Candidate cd1 len1 CS_HASHTYPE_SHA1] ->
      exists bytes,
        load_bytes m cd256 len256 = Ret bytes
        /\ cs_superblob_cdhash CC_SHA1 CC_SHA256 m sb size log
           = (Ret true, log ++ [firstn CS_CDHASH_LEN (CC_SHA256 bytes)]))
  /\ ranked_hash_types
     = [CS_HASHTYPE_SHA1; CS_HASHTYPE_SHA256_TRUNCATED; CS_HASHTYPE_SHA256; CS_HASHTYPE_SHA384]
  /\ (forall (m : buffer) (cd h : Z),
         load8 m (cd + cd_hashType) = Ret h ->
         cs_codedirectory_rank m cd = Ret (rank_of h))
  /\ (forall (h : Z) (i : nat),
         nth_error ranked_hash_types i = Some h -> rank_of h = Z.of_nat i + 1)
  /\ (forall h : Z, ~ In h ranked_hash_types -> rank_of h = 0).
Proof.
  split; [|split; [|split; [|split]]].
  - intros m sb size cd1 len1 cd256 len256 slots log Hreg Hslots Hacc Hcands.
    assert (Hsel : select slots no_best
                   = Some {| best_cd := cd256;
                             best_cd_rank := rank_of CS_HASHTYPE_SHA256;
                             best_cd_size := len256 |}).
    { rewrite select_accepted by exact Hacc. rewrite fold_prefer_filter.
      destruct Hcands as [-> | ->]; reflexivity. }
    assert (Hin : In (Candidate cd256 len256 CS_HASHTYPE_SHA256) slots).
    { apply (proj1 (filter_In is_candidate _ slots)).
      destruct Hcands as [-> | ->]; cbn; auto. }
    destruct (superblob_slots_candidate _ _ _ _ _ _ _ Hslots Hin)
      as (offset & Ho & Hcd & _ & Hlen & Hl & Hh).
    destruct (candidate_in_region m sb size offset len256 Hreg Ho Hlen)
      as (_ & Hnn & bytes & Hb).
    rewrite <- Hcd in Hnn, Hb.
    exists bytes. split; [exact Hb|].
    rewrite (cs_superblob_cdhash_select m sb size slots log Hslots), Hsel.
    cbn [best_cd best_cd_size].
    apply Z.eqb_neq in Hnn. rewrite Hnn.
    apply (cs_codedirectory_cdhash_sha256 _ _ _ len256); auto.
  - reflexivity.
  - intros m cd h Hh. rewrite cs_codedirectory_rank_eq, Hh. reflexivity.
  - intros h i Hi.
    destruct i as [|[|[|[|i]]]]; cbn in Hi; try (injection Hi as <-; reflexivity).
    destruct i; discriminate.
  - intros h Hnin. rewrite rank_of_cases.
    repeat match goal with
           | |- context [if ?x =? ?y then _ else _] =>
               let E := fresh "E" in
               destruct (x =? y) eqn:E; [apply Z.eqb_eq in E|]
           end; try reflexivity; exfalso; apply Hnin; subst h; cbn; auto.
Qed.

End SuperBlobProperties.

(** ** The theorems on concrete super-blobs *)

Ltac by_computation :=
  vm_compute; first [reflexivity | discriminate | (repeat split; discriminate)].

(** C3 on a super-blob that holds a SHA1 code directory at offset 28 and a
    SHA256 one at offset 116. *)
Lemma cs_superblob_cdhash_prefers_sha256_witness :
  exists bytes,
    load_bytes (blob_buffer (two_directories CS_HASHTYPE_SHA1 CS_HASHTYPE_SHA256))
      (image_base + 116) 88 = Ret bytes
    /\ cs_superblob_cdhash toy_sha1 toy_sha256
         (blob_buffer (two_directories CS_HASHTYPE_SHA1 CS_HASHTYPE_SHA256))
         image_base 204 []
       = (Ret true, [] ++ [firstn CS_CDHASH_LEN (toy_sha256 bytes)]).
Proof.
  apply (proj1 (cs_superblob_cdhash_prefers_sha256 toy_sha1 toy_sha256)
           (blob_buffer (two_directories CS_HASHTYPE_SHA1 CS_HASHTYPE_SHA256))
           image_base 204 (image_base + 28) 88 (image_base + 116) 88
           [Candidate (image_base + 28) 88 CS_HASHTYPE_SHA1;
            Candidate (image_base + 116) 88 CS_HASHTYPE_SHA256]).
  - unfold region_in_buffer, valid_buffer. repeat split; by_computation.
  - by_computation.
  - repeat constructor.
  - left. reflexivity.
Defined.

(** C3, as stated, fails: [two_directories_stray_entry] is a super-blob that
    [cs_superblob_validate] accepts and that contains exactly two valid code
    directories, one SHA1 and one SHA256; its third index entry, of a slot
    type that is no code directory, has an offset above the size, and
    [cs_superblob_cdhash] returns [false], as does the whole computation on
    an image signed with it.  So it is with
    [two_directories_broken_entry], whose third entry is a code-directory
    slot that holds no code directory. *)
Lemma cs_superblob_cdhash_two_directories_stray_entry :
  cs_superblob_validate (blob_buffer two_directories_stray_entry) image_base 212 = Ret 212
  /\ superblob_slots (blob_buffer two_directories_stray_entry) image_base 212
     = Ret [Candidate (image_base + 36) 88 CS_HASHTYPE_SHA1;
            Candidate (image_base + 124) 88 CS_HASHTYPE_SHA256;
            OutOfRange]
  /\ load_be32 (blob_buffer two_directories_stray_entry) (index_at image_base 2 + bi_type)
     = Ret 5
  /\ load_be32 (blob_buffer two_directories_stray_entry) (index_at image_base 2 + bi_offset)
     = Ret 9999
  /\ cs_superblob_cdhash toy_sha1 toy_sha256 (blob_buffer two_directories_stray_entry)
       image_base 212 []
     = (Ret false, [])
  /\ run_compute_cdhash toy_sha1 toy_sha256 3 (signed_image two_directories_stray_entry)
     = (Ret false, [])
  /\ cs_superblob_validate (blob_buffer two_directories_broken_entry) image_base 300 = Ret 300
  /\ superblob_slots (blob_buffer two_directories_broken_entry) image_base 300
     = Ret [Candidate (image_base + 36) 88 CS_HASHTYPE_SHA1;
            Candidate (image_base + 124) 88 CS_HASHTYPE_SHA256;
            Malformed]
  /\ cs_superblob_cdhash toy_sha1 toy_sha256 (blob_buffer two_directories_broken_entry)
       image_base 300 []
     = (Ret false, []).
Proof.
  repeat split; vm_compute; reflexivity.
Qed.


(** C8 on three super-blobs: one with a stray offset in an entry that is not
    a code-directory slot, one with a broken code directory next to a valid
    one, and one with two SHA256 code directories. *)
Lemma cs_superblob_cdhash_fails_closed_witness :
  cs_superblob_cdhash toy_sha1 toy_sha256 (blob_buffer stray_offset_blob) image_base 116 []
  = (Ret false, [])
  /\ cs_superblob_cdhash toy_sha1 toy_sha256 (blob_buffer broken_directory_blob)
       image_base 204 []
     = (Ret false, [])
  /\ cs_superblob_cdhash toy_sha1 toy_sha256
       (blob_buffer (two_directories CS_HASHTYPE_SHA256 CS_HASHTYPE_SHA256))
       image_base 204 []
     = cs_codedirectory_cdhash toy_sha1 toy_sha256
         (blob_buffer (two_directories CS_HASHTYPE_SHA256 CS_HASHTYPE_SHA256))
         (image_base + 28) 88 [].
Proof.
  split; [|split].
  - apply (proj1 (cs_superblob_cdhash_fails_closed toy_sha1 toy_sha256
                    (blob_buffer stray_offset_blob) image_base 116 2
                    [Candidate (image_base + 28) 88 CS_HASHTYPE_SHA256; OutOfRange] []
                    ltac:(by_computation) ltac:(by_computation))
             1 5 9999); by_computation.
  - apply (proj1 (proj2 (cs_superblob_cdhash_fails_closed toy_sha1 toy_sha256
                           (blob_buffer broken_directory_blob) image_base 204 2
                           [Candidate (image_base + 28) 88 CS_HASHTYPE_SHA256; Malformed] []
                           ltac:(by_computation) ltac:(by_computation)))
             1 CSSLOT_ALTERNATE_CODEDIRECTORIES 116); by_computation.
  - apply (proj2 (proj2 (cs_superblob_cdhash_fails_closed toy_sha1 toy_sha256
                           (blob_buffer (two_directories CS_HASHTYPE_SHA256 CS_HASHTYPE_SHA256))
                           image_base 204 2
                           [Candidate (image_base + 28) 88 CS_HASHTYPE_SHA256;
                            Candidate (image_base + 116) 88 CS_HASHTYPE_SHA256] []
                           ltac:(by_computation) ltac:(by_computation)))
             [] [Candidate (image_base + 116) 88 CS_HASHTYPE_SHA256]
             (image_base + 28) 88 CS_HASHTYPE_SHA256).
    + reflexivity.
    + repeat constructor.
    + reflexivity.
    + intros cd' len' h' [].
    + intros cd' len' h' [E|[]]. injection E as _ _ <-. by_computation.
    + by_computation.
Defined.

(** C10 on a super-blob whose two code directories declare the hash types 9
    and 0, which are not ranked. *)
Lemma cs_superblob_cdhash_unranked_witness :
  cs_superblob_scan (Z.to_nat 2) (blob_buffer (two_directories 9 0)) image_base 204 0 no_best
  = Ret (Some no_best)
  /\ cs_superblob_cdhash toy_sha1 toy_sha256 (blob_buffer (two_directories 9 0))
       image_base 204 []
     = (Ret false, []).
Proof.
  apply (proj2 (cs_superblob_cdhash_unranked toy_sha1 toy_sha256
                  (blob_buffer (two_directories 9 0)) image_base 204 2
                  [Candidate (image_base + 28) 88 9; Candidate (image_base + 116) 88 0] []
                  ltac:(by_computation) ltac:(by_computation))).
  - repeat constructor.
  - intros cd len h [E|[E|[]]]; injection E as _ _ <-; reflexivity.
Defined.

(** ** The scan of a validated super-blob does not fault *)

Lemma cs_codedirectory_validate_total (m : buffer) (cd size : Z) :
  base m <= cd -> cd + size <= base m + buf_size m ->
  exists r, cs_codedirectory_validate m cd size = Ret r.
Proof.
  intros Hlo Hhi. unfold cs_codedirectory_validate.
  destruct (size <? sizeof_CS_CodeDirectory) eqn:Es; [eauto|].
  apply Z.ltb_ge in Es. unfold sizeof_CS_CodeDirectory in Es.
  destruct (load_be32_ok m (cd + blob_magic)) as [magic Em];
    [unfold blob_magic; lia | unfold blob_magic; lia |].
  destruct (load_be32_ok m (cd + blob_length)) as [len El];
    [unfold blob_length; lia | unfold blob_length; lia |].
  rewrite Em. cbn [obind].
  destruct (negb (magic =? CSMAGIC_CODEDIRECTORY)); [eauto|].
  rewrite El. cbn [obind]. destruct (len >? size); eauto.
Qed.

Lemma cs_superblob_validate_inv (m : buffer) (sb size len : Z) :
  cs_superblob_validate m sb size = Ret len ->
  len <> 0 ->
  exists count,
    load_be32 m (sb + sb_count) = Ret count
    /\ 0 <= count < 0x10000
    /\ index_at sb count <= ptr_add sb size.
Proof.
  unfold cs_superblob_validate. intros H Hnz.
  destruct (size <? sizeof_CS_SuperBlob); [injection H as <-; contradiction|].
  destruct (load_be32 m (sb + blob_magic)) as [magic| |]; cbn [obind] in H; try discriminate.
  destruct (negb (magic =? CSMAGIC_EMBEDDED_SIGNATURE));
    [injection H as <-; contradiction|].
  destruct (load_be32 m (sb + blob_length)) as [l| |]; cbn [obind] in H; try discriminate.
  destruct (l >? size); [injection H as <-; contradiction|].
  destruct (load_be32 m (sb + sb_count)) as [count| |] eqn:Ec;
    cbn [obind] in H; try discriminate.
  cbv zeta in H.
  destruct (count >=? 65536) eqn:E1; cbn [orb] in H;
    [injection H as <-; contradiction|].
  destruct (index_at sb count >? ptr_add sb size) eqn:E2;
    [injection H as <-; contradiction|].
  exists count. split; [reflexivity|].
  apply load_be32_inv in Ec as (_ & _ & Hr).
  pose proof (Zge_cases count 65536) as H1. rewrite E1 in H1.
  pose proof (Zgt_cases (index_at sb count) (ptr_add sb size)) as H2. rewrite E2 in H2.
  split; [lia | exact H2].
Qed.

Lemma classify_total (m : buffer) (sb size count i : Z) :
  region_in_buffer m sb size ->
  sb_index + sizeof_CS_BlobIndex * count <= size ->
  0 <= i < count ->
  exists s, classify m sb size i = Ret s.
Proof.
  intros Hreg Hfit Hi. pose proof Hreg as ((Hb & He) & Hlo & Hhi).
  unfold sb_index, sizeof_CS_BlobIndex in Hfit.
  assert (Ei : index_at sb i = sb + (12 + 8 * i)).
  { unfold index_at, ptr_add, sb_index, sizeof_CS_BlobIndex. apply Z.mod_small. lia. }
  unfold classify. cbv zeta. rewrite Ei.
  destruct (load_be32_ok m (sb + (12 + 8 * i) + bi_type)) as [type Et];
    [unfold bi_type; lia | unfold bi_type; lia |].
  destruct (load_be32_ok m (sb + (12 + 8 * i) + bi_offset)) as [offset Eo];
    [unfold bi_offset; lia | unfold bi_offset; lia |].
  rewrite Et, Eo. cbn [obind].
  apply load_be32_inv in Eo as (_ & _ & Hr).
  pose proof (Zgt_cases offset size) as Hc.
  destruct (offset >? size); [eauto|].
  destruct (is_codedirectory_slot type); [|eauto].
  assert (Ecd : ptr_add sb offset = sb + offset).
  { unfold ptr_add. apply Z.mod_small. lia. }
  rewrite Ecd.
  destruct (cs_codedirectory_validate_total m (sb + offset) (size - offset))
    as [cd_size Ev]; [lia | lia |].
  rewrite Ev. cbn [obind].
  destruct (cd_size =? 0) eqn:Ez; [eauto|].
  apply Z.eqb_neq in Ez.
  apply cs_codedirectory_validate_inv in Ev as (Hs & _); [|exact Ez].
  unfold sizeof_CS_CodeDirectory in Hs.
  destruct (load8_ok m (sb + offset + cd_hashType)) as [h Eh];
    [unfold cd_hashType; lia | unfold cd_hashType; lia |].
  rewrite Eh. cbn [obind]. eauto.
Qed.

Lemma slots_from_total (m : buffer) (sb size count : Z) :
  region_in_buffer m sb size ->
  sb_index + sizeof_CS_BlobIndex * count <= size ->
  forall (n : nat) (i : Z),
    0 <= i -> i + Z.of_nat n <= count ->
    exists slots, slots_from n m sb size i = Ret slots.
Proof.
  intros Hreg Hfit. induction n as [|n IH]; intros i Hi Hn.
  - cbn. eauto.
  - cbn [slots_from].
    destruct (classify_total m sb size count i Hreg Hfit ltac:(lia)) as [s Es].
    destruct (IH (i + 1) ltac:(lia) ltac:(lia)) as [rest Er].
    rewrite Es, Er. cbn [obind]. eauto.
Qed.

(** For a super-blob that lies inside the buffer and that
    [cs_superblob_validate] accepted, every entry of the index can be read
    and classified: the scan of [cs_superblob_cdhash] meets no fault.  The
    super-blob must not sit in the last half megabyte of the address space,
    where the address of the end of the index would wrap around. *)
Lemma superblob_slots_total (m : buffer) (sb size len : Z) :
  region_in_buffer m sb size ->
  sb + sb_index + sizeof_CS_BlobIndex * 0x10000 <= 2 ^ 64 ->
  cs_superblob_validate m sb size = Ret len ->
  len <> 0 ->
  exists slots, superblob_slots m sb size = Ret slots.
Proof.
  intros Hreg Hroom Hv Hnz. pose proof Hreg as ((Hb & He) & Hlo & Hhi).
  destruct (cs_superblob_validate_inv _ _ _ _ Hv Hnz) as (count & Ec & Hc & Hidx).
  unfold sb_index, sizeof_CS_BlobIndex in Hroom.
  assert (Hsz : 0 <= size).
  { apply load_be32_inv in Ec as (H1 & H2 & _). unfold sb_count in *.
    unfold cs_superblob_validate in Hv.
    destruct (size <? sizeof_CS_SuperBlob) eqn:Es; [injection Hv as <-; contradiction|].
    apply Z.ltb_ge in Es. unfold sizeof_CS_SuperBlob in Es. lia. }
  assert (Efit : sb_index + sizeof_CS_BlobIndex * count <= size).
  { unfold index_at, ptr_add, sb_index, sizeof_CS_BlobIndex in *.
    rewrite (Z.mod_small (sb + size)) in Hidx by lia.
    rewrite Z.mod_small in Hidx by lia. lia. }
  unfold superblob_slots. rewrite Ec. cbn [obind].
  apply (slots_from_total m sb size count Hreg Efit); lia.
Qed.

Section ValidatedSuperBlob.

Variable CC_SHA1 : list byte -> list byte.
Variable CC_SHA256 : list byte -> list byte.

(** In a validated super-blob inside the buffer, an index entry whose offset
    is above [size] ends the operation with [false]: no read faults before
    the entry is met, and none is made at the stray offset. *)
Lemma cs_superblob_cdhash_stray_offset (m : buffer) (sb size len count i type offset : Z)
    (log : cdhash_log) :
  region_in_buffer m sb size ->
  sb + sb_index + sizeof_CS_BlobIndex * 0x10000 <= 2 ^ 64 ->
  cs_superblob_validate m sb size = Ret len ->
  len <> 0 ->
  load_be32 m (sb + sb_count) = Ret count ->
  0 <= i < count ->
  load_be32 m (index_at sb i + bi_type) = Ret type ->
  load_be32 m (index_at sb i + bi_offset) = Ret offset ->
  size < offset ->
  cs_superblob_cdhash CC_SHA1 CC_SHA256 m sb size log = (Ret false, log).
Proof.
  intros Hreg Hroom Hv Hnz Hcount Hi Ht Ho Hgt.
  destruct (superblob_slots_total m sb size len Hreg Hroom Hv Hnz) as [slots Hslots].
  pose proof (classify_out_of_range _ _ _ _ _ _ Ht Ho Hgt) as Hc.
  pose proof (superblob_slots_classify _ _ _ _ _ _ _ Hslots Hcount Hi Hc) as Hin.
  rewrite (cs_superblob_cdhash_select CC_SHA1 CC_SHA256 m sb size slots log Hslots).
  rewrite select_rejected; auto.
Qed.

End ValidatedSuperBlob.

(** * Further properties of the code *)

(** ** The search after the validation *)

Lemma macho_validate_inv (fuel : nat) (m : buffer) (mh size : Z) :
  macho_validate fuel m mh size = Ret true ->
  0x1000 <= size
  /\ load32 m (mh + mh_magic) = Ret MH_MAGIC_64
  /\ macho_identify m mh size = Ret true
  /\ exists sizeofcmds,
      load32 m (mh + mh_sizeofcmds) = Ret sizeofcmds
      /\ sizeofcmds <= size
      /\ macho_validate_loop fuel m (ptr_add mh sizeof_mach_header_64)
           (ptr_add (ptr_add mh sizeof_mach_header_64) sizeofcmds) = Ret true.
Proof.
  unfold macho_validate. intros H.
  assert (Hid : macho_identify m mh size = Ret true).
  { destruct (macho_identify m mh size) as [[|]| |]; cbn in H; try discriminate.
    reflexivity. }
  rewrite Hid in H. cbn [obind negb] in H.
  unfold macho_identify in Hid.
  destruct (size <? 4096) eqn:Es; [discriminate|]. apply Z.ltb_ge in Es.
  destruct (load32 m (mh + mh_magic)) as [magic| |] eqn:Em; cbn in Hid; try discriminate.
  destruct (magic =? MH_MAGIC_64) eqn:Eq; cbn in Hid; try discriminate.
  apply Z.eqb_eq in Eq. subst magic.
  destruct (load32 m (mh + mh_sizeofcmds)) as [s| |] eqn:Hs; cbn [obind] in H;
    try discriminate.
  pose proof (Zgt_cases s size) as Hc.
  destruct (s >? size); [discriminate|]. cbv zeta in H.
  split; [exact Es|]. split; [reflexivity|].
  split; [unfold macho_identify; apply Z.ltb_ge in Es; rewrite Es, Em; reflexivity|].
  exists s. auto.
Qed.

(** From a command that the walk accepts to the end of the table, the search
    visits the commands of the walk and stops at the first match. *)
Lemma macho_find_follows_walk (m : buffer) (mh size command sizeofcmds : Z) :
  0 <= mh <= 2 ^ 63 ->
  base m <= mh ->
  load32 m (mh + mh_sizeofcmds) = Ret sizeofcmds ->
  forall (fuel : nat) (lc_p lc : Z),
    mh + sizeof_mach_header_64 <= lc_p ->
    lc_p <= mh + sizeof_mach_header_64 + sizeofcmds ->
    macho_validate_loop fuel m lc_p (mh + sizeof_mach_header_64 + sizeofcmds) = Ret true ->
    (if lc =? NULL then Ret (ptr_add mh sizeof_mach_header_64)
     else cmdsize <- load32 m (lc + lc_cmdsize) ;; Ret (ptr_add lc cmdsize)) = Ret lc_p ->
    exists cmds,
      load_commands fuel m lc_p (mh + sizeof_mach_header_64 + sizeofcmds) = Ret cmds
      /\ macho_find_load_command fuel m mh size command lc
         = Ret (first_command m command cmds).
Proof.
  intros Hmh Hbase Hs.
  pose proof (load32_inv _ _ _ Hs) as (_ & _ & Hsr).
  change (2 ^ 63) with 9223372036854775808 in Hmh.
  change (2 ^ 32) with 4294967296 in Hsr.
  unfold sizeof_mach_header_64.
  assert (Eend : ptr_add (ptr_add mh 32) sizeofcmds = mh + 32 + sizeofcmds).
  { unfold ptr_add. rewrite (Z.mod_small (mh + 32)) by lia. apply Z.mod_small. lia. }
  induction fuel as [|fuel IH]; intros lc_p lc Hlo Hhi Hloop Hnext.
  - discriminate.
  - cbn [macho_validate_loop] in Hloop. cbn [load_commands macho_find_load_command].
    unfold macho_next_load_command. unfold sizeof_mach_header_64.
    rewrite Hnext. cbn [obind]. rewrite Hs. cbn [obind]. rewrite Eend.
    destruct (lc_p <? mh + 32 + sizeofcmds) eqn:El.
    + apply Z.ltb_lt in El.
      destruct (load32 m (lc_p + lc_cmdsize)) as [cmdsize| |] eqn:Ec;
        cbn [obind] in *; try discriminate.
      pose proof (Zge_cases cmdsize 2147483648) as Hc.
      destruct (cmdsize >=? 2147483648); [discriminate|]. cbv zeta in Hloop.
      pose proof (load32_inv _ _ _ Ec) as (_ & Hin & Hr).
      assert (En : ptr_add lc_p cmdsize = lc_p + cmdsize).
      { unfold ptr_add. apply Z.mod_small. lia. }
      rewrite En in *.
      pose proof (Zgt_cases (lc_p + cmdsize) (mh + 32 + sizeofcmds)) as Hg.
      destruct (lc_p + cmdsize >? mh + 32 + sizeofcmds); [discriminate|].
      assert (Enull : (lc_p =? NULL) = false) by (apply Z.eqb_neq; unfold NULL; lia).
      assert (Hstep : (if lc_p =? NULL then Ret (ptr_add mh 32)
                       else c <- load32 m (lc_p + lc_cmdsize) ;; Ret (ptr_add lc_p c))
                      = Ret (lc_p + cmdsize)).
      { rewrite Enull, Ec. cbn [obind]. rewrite En. reflexivity. }
      destruct (IH (lc_p + cmdsize) lc_p ltac:(lia) ltac:(lia) Hloop Hstep)
        as (cmds & Hcmds & Hfind).
      rewrite Hcmds. cbn [obind]. exists (lc_p :: cmds). split; [reflexivity|].
      assert (Hge : (lc_p >=? mh + 32 + sizeofcmds) = false).
      { pose proof (Zge_cases lc_p (mh + 32 + sizeofcmds)) as Hx.
        destruct (lc_p >=? mh + 32 + sizeofcmds); [lia | reflexivity]. }
      rewrite Hge. cbn [obind]. rewrite Enull.
      destruct (load32_ok m (lc_p + lc_cmd)) as [cmd Ecmd];
        [unfold lc_cmd; lia | unfold lc_cmd, lc_cmdsize in *; lia |].
      rewrite Ecmd. cbn [obind first_command]. rewrite Ecmd.
      destruct (cmd =? command); [reflexivity | exact Hfind].
    + apply Z.ltb_ge in El. exists []. split; [reflexivity|].
      assert (Hge : (lc_p >=? mh + 32 + sizeofcmds) = true).
      { pose proof (Zge_cases lc_p (mh + 32 + sizeofcmds)) as Hx.
        destruct (lc_p >=? mh + 32 + sizeofcmds); [reflexivity | lia]. }
      rewrite Hge. reflexivity.
Qed.

(** The same, from the start of the table of an image that [macho_validate]
    accepted. *)
Lemma macho_find_after_validate (fuel : nat) (m : buffer) (mh size command : Z) :
  0 <= mh <= 2 ^ 63 ->
  base m <= mh ->
  macho_validate fuel m mh size = Ret true ->
  exists sizeofcmds cmds,
    load32 m (mh + mh_sizeofcmds) = Ret sizeofcmds
    /\ load_commands fuel m (mh + sizeof_mach_header_64)
         (mh + sizeof_mach_header_64 + sizeofcmds) = Ret cmds
    /\ macho_find_load_command fuel m mh size command NULL
       = Ret (first_command m command cmds).
Proof.
  intros Hmh Hbase Hv.
  destruct (macho_validate_inv _ _ _ _ Hv) as (_ & _ & _ & s & Hs & _ & Hloop).
  pose proof (load32_inv _ _ _ Hs) as (_ & _ & Hsr).
  assert (E1 : ptr_add mh sizeof_mach_header_64 = mh + sizeof_mach_header_64).
  { unfold ptr_add, sizeof_mach_header_64. apply Z.mod_small.
    change (2 ^ 63) with 9223372036854775808 in Hmh. lia. }
  assert (E2 : ptr_add (mh + sizeof_mach_header_64) s = mh + sizeof_mach_header_64 + s).
  { unfold ptr_add, sizeof_mach_header_64. apply Z.mod_small.
    change (2 ^ 63) with 9223372036854775808 in Hmh.
    change (2 ^ 32) with 4294967296 in Hsr. lia. }
  rewrite E1, E2 in Hloop.
  destruct (macho_find_follows_walk m mh size command s Hmh Hbase Hs fuel
              (mh + sizeof_mach_header_64) NULL) as (cmds & Hc & Hf).
  - lia.
  - lia.
  - exact Hloop.
  - cbn. rewrite E1. reflexivity.
  - exists s, cmds. auto.
Qed.

(** X1: on an image that [macho_validate] accepted, [macho_find_load_command]
    started from [NULL] neither faults nor needs more fuel than the
    validation had: it returns the first load command of the walk whose [cmd]
    is the one asked for, and [NULL] when no command of the walk has it. *)
Theorem macho_find_load_command_first_match (fuel : nat) (m : buffer)
    (mh size command : Z) :
  0 <= mh <= 2 ^ 63 ->
  base m <= mh ->
  macho_validate fuel m mh size = Ret true ->
  exists sizeofcmds cmds,
    load32 m (mh + mh_sizeofcmds) = Ret sizeofcmds
    /\ load_commands fuel m (mh + sizeof_mach_header_64)
         (mh + sizeof_mach_header_64 + sizeofcmds) = Ret cmds
    /\ macho_find_load_command fuel m mh size command NULL
       = Ret (first_command m command cmds).
Proof.
  exact (macho_find_after_validate fuel m mh size command).
Qed.

Lemma macho_find_load_command_first_match_witness :
  exists sizeofcmds cmds,
    load32 unsigned_image (image_base + mh_sizeofcmds) = Ret sizeofcmds
    /\ load_commands 2 unsigned_image (image_base + sizeof_mach_header_64)
         (image_base + sizeof_mach_header_64 + sizeofcmds) = Ret cmds
    /\ macho_find_load_command 2 unsigned_image image_base 4096 0x19 NULL
       = Ret (first_command unsigned_image 0x19 cmds).
Proof.
  apply (macho_find_load_command_first_match 2 unsigned_image image_base 4096 0x19);
    by_computation.
Defined.

(** ** The signature blob is read inside the buffer *)

Lemma cs_superblob_validate_total (m : buffer) (sb size : Z) :
  region_in_buffer m sb size ->
  exists r, cs_superblob_validate m sb size = Ret r.
Proof.
  intros ((Hb & He) & Hlo & Hhi). unfold cs_superblob_validate.
  destruct (size <? sizeof_CS_SuperBlob) eqn:Es; [eauto|].
  apply Z.ltb_ge in Es. unfold sizeof_CS_SuperBlob in Es.
  destruct (load_be32_ok m (sb + blob_magic)) as [magic Em];
    [unfold blob_magic; lia | unfold blob_magic; lia |].
  destruct (load_be32_ok m (sb + blob_length)) as [len El];
    [unfold blob_length; lia | unfold blob_length; lia |].
  destruct (load_be32_ok m (sb + sb_count)) as [count Ec];
    [unfold sb_count; lia | unfold sb_count; lia |].
  rewrite Em. cbn [obind].
  destruct (negb (magic =? CSMAGIC_EMBEDDED_SIGNATURE)); [eauto|].
  rewrite El. cbn [obind]. destruct (len >? size); [eauto|].
  rewrite Ec. cbn [obind]. cbv zeta.
  destruct ((count >=? 65536) || (index_at sb count >? ptr_add sb size)); eauto.
Qed.

Lemma select_some (slots : list slot) :
  forall b b', select slots b = Some b' -> b' = fold_left prefer slots b.
Proof.
  induction slots as [|s rest IH]; intros b b' H.
  - cbn in H. injection H as <-. reflexivity.
  - destruct s; cbn [select] in H; try discriminate; cbn [fold_left]; apply IH; exact H.
Qed.

Section SignatureReads.

Variable CC_SHA1 : list byte -> list byte.
Variable CC_SHA256 : list byte -> list byte.

Lemma cs_codedirectory_cdhash_total (m : buffer) (cd size len h : Z) (bytes : list byte)
    (log : cdhash_log) :
  load_be32 m (cd + blob_length) = Ret len ->
  load8 m (cd + cd_hashType) = Ret h ->
  load_bytes m cd len = Ret bytes ->
  exists b log', cs_codedirectory_cdhash CC_SHA1 CC_SHA256 m cd size log = (Ret b, log').
Proof.
  intros Hl Hh Hb.
  destruct (Z.eq_dec h CS_HASHTYPE_SHA1) as [->|H1].
  - rewrite (cs_codedirectory_cdhash_sha1 CC_SHA1 CC_SHA256 m cd size len bytes log Hl Hh Hb).
    eauto.
  - destruct (Z.eq_dec h CS_HASHTYPE_SHA256) as [->|H2].
    + rewrite (cs_codedirectory_cdhash_sha256 CC_SHA1 CC_SHA256 m cd size len bytes log
                 Hl Hh Hb).
      eauto.
    + rewrite (cs_codedirectory_cdhash_unsupported CC_SHA1 CC_SHA256 m cd size len h log
                 Hl Hh H1 H2).
      eauto.
Qed.

Lemma cs_superblob_cdhash_total (m : buffer) (sb size len : Z) (log : cdhash_log) :
  region_in_buffer m sb size ->
  sb + sb_index + sizeof_CS_BlobIndex * 0x10000 <= 2 ^ 64 ->
  cs_superblob_validate m sb size = Ret len ->
  len <> 0 ->
  exists b log', cs_superblob_cdhash CC_SHA1 CC_SHA256 m sb size log = (Ret b, log').
Proof.
  intros Hreg Hroom Hv Hnz.
  destruct (superblob_slots_total m sb size len Hreg Hroom Hv Hnz) as [slots Hslots].
  rewrite (cs_superblob_cdhash_select CC_SHA1 CC_SHA256 m sb size slots log Hslots).
  destruct (select slots no_best) as [b|] eqn:Hsel; [|eauto].
  destruct (best_cd b =? NULL) eqn:En; [eauto|].
  apply select_some in Hsel.
  destruct (fold_prefer_origin slots no_best) as [E|(cd & l & h & Hin & _ & E)].
  - rewrite E in Hsel. subst b. discriminate.
  - rewrite E in Hsel. subst b. cbn [best_cd best_cd_size].
    destruct (superblob_slots_candidate _ _ _ _ _ _ _ Hslots Hin)
      as (offset & Ho & Hcd & _ & Hlen & Hl & Hh).
    destruct (candidate_in_region m sb size offset l Hreg Ho Hlen) as (_ & _ & bytes & Hb).
    rewrite <- Hcd in Hb.
    apply (cs_codedirectory_cdhash_total m cd l l h bytes log Hl Hh Hb).
Qed.

Lemma csblob_cdhash_total (m : buffer) (blob size : Z) (log : cdhash_log) :
  region_in_buffer m blob size ->
  blob + sb_index + sizeof_CS_BlobIndex * 0x10000 <= 2 ^ 64 ->
  exists b log', csblob_cdhash CC_SHA1 CC_SHA256 m blob size log = (Ret b, log').
Proof.
  intros Hreg Hroom. pose proof Hreg as ((Hb & He) & Hlo & Hhi).
  unfold csblob_cdhash.
  destruct (size <? sizeof_CS_GenericBlob) eqn:Es; [unfold mret; eauto|].
  apply Z.ltb_ge in Es. unfold sizeof_CS_GenericBlob in Es.
  destruct (load_be32_ok m (blob + blob_magic)) as [magic Em];
    [unfold blob_magic; lia | unfold blob_magic; lia |].
  destruct (load_be32_ok m (blob + blob_length)) as [len El];
    [unfold blob_length; lia | unfold blob_length; lia |].
  unfold mbind, lift. rewrite Em, El.
  pose proof (load_be32_inv _ _ _ El) as (_ & _ & Hlr).
  pose proof (Zgt_cases len size) as Hc.
  destruct (len >? size); [unfold mret; eauto|].
  assert (Hreg' : region_in_buffer m blob len).
  { unfold region_in_buffer, valid_buffer. repeat split; lia. }
  destruct (magic =? CSMAGIC_EMBEDDED_SIGNATURE).
  - destruct (cs_superblob_validate_total m blob len Hreg') as [ok Hok].
    rewrite Hok. destruct (ok =? 0) eqn:Ez; [unfold mret; eauto|].
    apply Z.eqb_neq in Ez.
    apply (cs_superblob_cdhash_total m blob len ok log Hreg' Hroom Hok Ez).
  - destruct (magic =? CSMAGIC_CODEDIRECTORY); [|unfold mret; eauto].
    destruct (cs_codedirectory_validate_total m blob len) as [ok Hok]; [lia | lia |].
    rewrite Hok. destruct (ok =? 0) eqn:Ez; [unfold mret; eauto|].
    apply Z.eqb_neq in Ez.
    destruct (cs_codedirectory_validate_inv _ _ _ _ Hok Ez) as (Hs & _ & Hl & Hle).
    unfold sizeof_CS_CodeDirectory in Hs.
    destruct (load8_ok m (blob + cd_hashType)) as [h Hh];
      [unfold cd_hashType; lia | unfold cd_hashType; lia |].
    destruct (load_bytes_ok m blob ok) as [bytes Hbytes]; [lia | lia |].
    apply (cs_codedirectory_cdhash_total m blob len ok h bytes log Hl Hh Hbytes).
Qed.

(** X2: whatever bytes a region inside the buffer holds, [csblob_cdhash] on
    that region returns [true] or [false]: none of its reads, nor those of
    the validation, of the scan of the index and of the digest, touches a
    byte outside the buffer.  (The region must not lie in the last half
    megabyte of the address space, where the end of the index wraps around.) *)
Theorem csblob_cdhash_reads_in_bounds (m : buffer) (blob size : Z) (log : cdhash_log) :
  region_in_buffer m blob size ->
  blob + sb_index + sizeof_CS_BlobIndex * 0x10000 <= 2 ^ 64 ->
  exists b log', csblob_cdhash CC_SHA1 CC_SHA256 m blob size log = (Ret b, log').
Proof.
  exact (csblob_cdhash_total m blob size log).
Qed.

End SignatureReads.

Lemma csblob_cdhash_reads_in_bounds_witness :
  exists b log',
    csblob_cdhash toy_sha1 toy_sha256 (blob_buffer broken_directory_blob)
      image_base 204 [] = (Ret b, log').
Proof.
  apply (csblob_cdhash_reads_in_bounds toy_sha1 toy_sha256
           (blob_buffer broken_directory_blob) image_base 204 []).
  - unfold region_in_buffer, valid_buffer. repeat split; by_computation.
  - by_computation.
Defined.

(** ** From the load commands to the signature *)

Lemma first_command_none (m : buffer) (command : Z) (cmds : list Z) :
  Forall (fun lc => load32 m (lc + lc_cmd) <> Ret command) cmds ->
  first_command m command cmds = NULL.
Proof.
  induction 1 as [|lc rest Hlc _ IH]; [reflexivity|].
  cbn [first_command].
  destruct (load32 m (lc + lc_cmd)) as [cmd| |]; try exact IH.
  destruct (cmd =? command) eqn:E; [|exact IH].
  apply Z.eqb_eq in E. subst cmd. contradiction.
Qed.

Lemma low_buffer_sizes (m : buffer) :
  low_buffer m -> 0 <= buf_size m /\ valid_buffer m.
Proof.
  intros [Hb He]. unfold valid_buffer, buf_size in *.
  change (2 ^ 63) with 9223372036854775808 in He.
  change (2 ^ 64) with 18446744073709551616. lia.
Qed.

(** The walk finishes when no load command that it reaches has a [cmdsize]
    of 0. *)
Lemma macho_validate_loop_finishes_reached (m : buffer) (lc_end start : Z) :
  lc_end + 2 ^ 31 <= 2 ^ 64 ->
  (forall p, walk_reaches m lc_end start p -> p < lc_end ->
             load32 m (p + lc_cmdsize) <> Ret 0) ->
  forall (fuel : nat) (lc_p : Z),
    0 <= lc_p ->
    walk_reaches m lc_end start lc_p ->
    (Z.to_nat (lc_end - lc_p) < fuel)%nat ->
    macho_validate_loop fuel m lc_p lc_end <> OutOfFuel.
Proof.
  intros Hroom Hnz. induction fuel as [|fuel IH]; intros lc_p Hp Hreach Hfuel.
  - lia.
  - cbn [macho_validate_loop].
    destruct (lc_p <? lc_end) eqn:El; [|discriminate].
    apply Z.ltb_lt in El.
    destruct (load32 m (lc_p + lc_cmdsize)) as [cmdsize| |] eqn:Ec;
      cbn [obind]; try discriminate.
    2:{ exfalso. apply (load32_returns_or_faults _ _ Ec). }
    pose proof (Zge_cases cmdsize 2147483648) as Hc.
    destruct (cmdsize >=? 2147483648); [discriminate|].
    cbv zeta.
    assert (Hne : cmdsize <> 0).
    { intros ->. apply (Hnz lc_p Hreach El). exact Ec. }
    pose proof (reaches_next m lc_end start lc_p cmdsize Hreach El Ec) as Hreach'.
    apply load32_inv in Ec as (_ & _ & Hr).
    assert (En : ptr_add lc_p cmdsize = lc_p + cmdsize).
    { unfold ptr_add. apply Z.mod_small.
      change (2 ^ 31) with 2147483648 in Hroom. lia. }
    rewrite En in *.
    destruct (lc_p + cmdsize >? lc_end); [discriminate|].
    apply IH.
    + lia.
    + exact Hreach'.
    + lia.
Qed.

Section MachoToSignature.

Variable CC_SHA1 : list byte -> list byte.
Variable CC_SHA256 : list byte -> list byte.

Lemma compute_cdhash_macho_total (fuel : nat) (m : buffer) (cs_cmd : Z) (log : cdhash_log) :
  low_buffer m ->
  macho_find_load_command fuel m (base m) (buf_size m) LC_CODE_SIGNATURE NULL = Ret cs_cmd ->
  (cs_cmd <> NULL ->
   base m <= cs_cmd /\ cs_cmd + lc_datasize + 4 <= base m + buf_size m) ->
  exists b log',
    compute_cdhash_macho CC_SHA1 CC_SHA256 fuel m (base m) (buf_size m) log = (Ret b, log').
Proof.
  intros Hlow Hf Hcmd. pose proof Hlow as [Hb He].
  destruct (low_buffer_sizes m Hlow) as [Hsz Hvalid].
  change (2 ^ 63) with 9223372036854775808 in He.
  unfold compute_cdhash_macho, mbind, lift. rewrite Hf.
  destruct (cs_cmd =? NULL) eqn:En; [unfold mret; eauto|].
  apply Z.eqb_neq in En. destruct (Hcmd En) as [Hlo Hhi]. unfold lc_datasize in Hhi.
  destruct (load32_ok m (cs_cmd + lc_dataoff)) as [dataoff Ho];
    [unfold lc_dataoff; lia | unfold lc_dataoff; lia |].
  destruct (load32_ok m (cs_cmd + lc_datasize)) as [datasize Hd];
    [unfold lc_datasize; lia | unfold lc_datasize; lia |].
  rewrite Ho, Hd.
  pose proof (load32_inv _ _ _ Ho) as (_ & _ & Hor).
  pose proof (load32_inv _ _ _ Hd) as (_ & _ & Hdr).
  pose proof (signature_region_ok_dec (base m) (buf_size m) dataoff datasize) as Hdec.
  cbv zeta in Hdec.
  match goal with |- context [negb ?c] => destruct c eqn:Ec end;
    cbn [negb]; [|unfold mret; eauto].
  clear Ec. pose proof (proj1 Hdec eq_refl) as Ec.
  apply signature_region_ok_no_wrap in Ec; try assumption; try lia.
  change (2 ^ 32) with 4294967296 in Hor, Hdr.
  assert (E1 : ptr_add (base m) dataoff = base m + dataoff).
  { unfold ptr_add. apply Z.mod_small. lia. }
  assert (E2 : ptr_add (base m + dataoff) datasize = base m + dataoff + datasize).
  { unfold ptr_add. apply Z.mod_small. lia. }
  rewrite E1, E2.
  apply csblob_cdhash_total.
  - unfold region_in_buffer. split; [exact Hvalid|]. lia.
  - unfold sb_index, sizeof_CS_BlobIndex. change (2 ^ 64) with 18446744073709551616. lia.
Qed.

(** X3: for a buffer in the lower half of the address space and a call on
    the whole buffer, once the code-signature command that was found lies in
    the buffer with its [dataoff] and [datasize] fields, [compute_cdhash_macho]
    returns [true] or [false]: the test on the signature region keeps every
    later read inside the buffer. *)
Theorem compute_cdhash_macho_reads_in_bounds (fuel : nat) (m : buffer) (cs_cmd : Z)
    (log : cdhash_log) :
  low_buffer m ->
  macho_find_load_command fuel m (base m) (buf_size m) LC_CODE_SIGNATURE NULL = Ret cs_cmd ->
  (cs_cmd <> NULL ->
   base m <= cs_cmd /\ cs_cmd + lc_datasize + 4 <= base m + buf_size m) ->
  exists b log',
    compute_cdhash_macho CC_SHA1 CC_SHA256 fuel m (base m) (buf_size m) log = (Ret b, log').
Proof.
  exact (compute_cdhash_macho_total fuel m cs_cmd log).
Qed.

(** X4: an image that [macho_validate] accepted and whose load commands
    include no code-signature command makes [compute_cdhash] return [false],
    with nothing written. *)
Theorem compute_cdhash_unsigned (fuel : nat) (m : buffer) (mh size sizeofcmds : Z)
    (cmds : list Z) (log : cdhash_log) :
  0 <= mh <= 2 ^ 63 ->
  base m <= mh ->
  macho_validate fuel m mh size = Ret true ->
  load32 m (mh + mh_sizeofcmds) = Ret sizeofcmds ->
  load_commands fuel m (mh + sizeof_mach_header_64)
    (mh + sizeof_mach_header_64 + sizeofcmds) = Ret cmds ->
  Forall (fun lc => load32 m (lc + lc_cmd) <> Ret LC_CODE_SIGNATURE) cmds ->
  compute_cdhash CC_SHA1 CC_SHA256 fuel m mh size log = (Ret false, log).
Proof.
  intros Hmh Hbase Hv Hs Hcmds Hnone.
  destruct (macho_find_after_validate fuel m mh size LC_CODE_SIGNATURE Hmh Hbase Hv)
    as (s' & cmds' & Hs' & Hcmds' & Hfind).
  assert (s' = sizeofcmds) by congruence. subst s'.
  assert (cmds' = cmds) by congruence. subst cmds'.
  rewrite (first_command_none _ _ _ Hnone) in Hfind.
  destruct (macho_validate_inv _ _ _ _ Hv) as (_ & _ & Hid & _).
  unfold compute_cdhash, mbind, lift. rewrite Hid, Hv. cbn [negb].
  unfold compute_cdhash_macho, mbind, lift. rewrite Hfind. reflexivity.
Qed.

(** X5: for a buffer in the lower half of the address space, when no load
    command that the walk reaches inside the table has a [cmdsize] of 0, fuel
    above [sizeofcmds] is enough for [compute_cdhash]: its two loops over the
    load commands end within [sizeofcmds + 1] iterations each, and the rest
    has no loop whose exit depends on the data. *)
Theorem compute_cdhash_terminates (fuel : nat) (m : buffer) (sizeofcmds : Z) :
  low_buffer m ->
  load32 m (base m + mh_sizeofcmds) = Ret sizeofcmds ->
  (Z.to_nat sizeofcmds < fuel)%nat ->
  (forall p,
      walk_reaches m (base m + sizeof_mach_header_64 + sizeofcmds)
        (base m + sizeof_mach_header_64) p ->
      p < base m + sizeof_mach_header_64 + sizeofcmds ->
      load32 m (p + lc_cmdsize) <> Ret 0) ->
  fst (run_compute_cdhash CC_SHA1 CC_SHA256 fuel m) <> OutOfFuel.
Proof.
  intros Hlow Hs Hfuel Hnz. pose proof Hlow as [Hb He].
  destruct (low_buffer_sizes m Hlow) as [Hsz Hvalid].
  change (2 ^ 63) with 9223372036854775808 in He.
  pose proof (load32_inv _ _ _ Hs) as (_ & _ & Hsr).
  change (2 ^ 32) with 4294967296 in Hsr.
  unfold sizeof_mach_header_64 in Hnz.
  unfold run_compute_cdhash, compute_cdhash, mbind, lift.
  destruct (macho_identify m (base m) (buf_size m)) as [[|]| |] eqn:Hid;
    cbn [fst]; try discriminate.
  2:{ unfold macho_identify in Hid. destruct (buf_size m <? 4096); [discriminate|].
      destruct (load32 m (base m + mh_magic)) as [x| |] eqn:Ex; cbn in Hid;
        try discriminate.
      - destruct (negb (x =? MH_MAGIC_64)); discriminate.
      - exfalso. apply (load32_returns_or_faults _ _ Ex). }
  destruct (macho_validate fuel m (base m) (buf_size m)) as [[|]| |] eqn:Hv;
    cbn [negb fst]; try discriminate.
  - destruct (macho_find_after_validate fuel m (base m) (buf_size m) LC_CODE_SIGNATURE
                ltac:(change (2 ^ 63) with 9223372036854775808; lia) ltac:(lia) Hv)
      as (s' & cmds & _ & _ & Hfind).
    unfold compute_cdhash_macho, mbind, lift. rewrite Hfind.
    destruct (first_command m LC_CODE_SIGNATURE cmds =? NULL); [discriminate|].
    destruct (load32 m (first_command m LC_CODE_SIGNATURE cmds + lc_dataoff))
      as [dataoff| |] eqn:Ho; cbn [fst]; try discriminate.
    2:{ exfalso. apply (load32_returns_or_faults _ _ Ho). }
    destruct (load32 m (first_command m LC_CODE_SIGNATURE cmds + lc_datasize))
      as [datasize| |] eqn:Hd; cbn [fst]; try discriminate.
    2:{ exfalso. apply (load32_returns_or_faults _ _ Hd). }
    pose proof (load32_inv _ _ _ Ho) as (_ & _ & Hor).
    pose proof (load32_inv _ _ _ Hd) as (_ & _ & Hdr).
    pose proof (signature_region_ok_dec (base m) (buf_size m) dataoff datasize) as Hdec.
    cbv zeta in Hdec.
    match goal with |- context [negb ?c] => destruct c eqn:Ec end;
      cbn [negb]; [|discriminate].
    clear Ec. pose proof (proj1 Hdec eq_refl) as Ec.
    apply signature_region_ok_no_wrap in Ec; try assumption; try lia.
    change (2 ^ 32) with 4294967296 in Hor, Hdr.
    assert (E1 : ptr_add (base m) dataoff = base m + dataoff).
    { unfold ptr_add. apply Z.mod_small. lia. }
    assert (E2 : ptr_add (base m + dataoff) datasize = base m + dataoff + datasize).
    { unfold ptr_add. apply Z.mod_small. lia. }
    rewrite E1, E2.
    destruct (csblob_cdhash_total CC_SHA1 CC_SHA256 m (base m + dataoff)
                (base m + dataoff + datasize - (base m + dataoff)) [])
      as (b & log' & E).
    + unfold region_in_buffer. split; [exact Hvalid|]. lia.
    + unfold sb_index, sizeof_CS_BlobIndex. change (2 ^ 64) with 18446744073709551616. lia.
    + rewrite E. discriminate.
  - exfalso. unfold macho_validate in Hv. rewrite Hid in Hv. cbn [obind negb] in Hv.
    rewrite Hs in Hv. cbn [obind] in Hv.
    destruct (sizeofcmds >? buf_size m); [discriminate|]. cbv zeta in Hv.
    assert (E1 : ptr_add (base m) sizeof_mach_header_64 = base m + 32).
    { unfold ptr_add, sizeof_mach_header_64. apply Z.mod_small. lia. }
    assert (E2 : ptr_add (base m + 32) sizeofcmds = base m + 32 + sizeofcmds).
    { unfold ptr_add. apply Z.mod_small. lia. }
    rewrite E1, E2 in Hv. revert Hv.
    apply (macho_validate_loop_finishes_reached m (base m + 32 + sizeofcmds) (base m + 32)).
    + change (2 ^ 31) with 2147483648. change (2 ^ 64) with 18446744073709551616. lia.
    + exact Hnz.
    + lia.
    + apply reaches_start.
    + replace (base m + 32 + sizeofcmds - (base m + 32)) with sizeofcmds by lia.
      exact Hfuel.
Qed.

End MachoToSignature.

Lemma compute_cdhash_macho_reads_in_bounds_witness :
  exists b log',
    compute_cdhash_macho toy_sha1 toy_sha256 3
      (signed_image (two_directories CS_HASHTYPE_SHA1 CS_HASHTYPE_SHA256))
      image_base 4096 [] = (Ret b, log').
Proof.
  apply (compute_cdhash_macho_reads_in_bounds toy_sha1 toy_sha256 3
           (signed_image (two_directories CS_HASHTYPE_SHA1 CS_HASHTYPE_SHA256))
           (image_base + 32) []).
  - unfold low_buffer. split; by_computation.
  - by_computation.
  - intros _. split; by_computation.
Defined.

Lemma compute_cdhash_unsigned_witness :
  compute_cdhash toy_sha1 toy_sha256 2 unsigned_image image_base 4096 [] = (Ret false, []).
Proof.
  apply (compute_cdhash_unsigned toy_sha1 toy_sha256 2 unsigned_image image_base 4096 16
           [image_base + 32] []).
  - by_computation.
  - by_computation.
  - by_computation.
  - by_computation.
  - by_computation.
  - constructor; [by_computation | constructor].
Defined.

(** In the signed test image the walk reaches the one command and the end of
    the table. *)
Lemma signed_image_walk (p : Z) :
  walk_reaches (signed_image (two_directories CS_HASHTYPE_SHA1 CS_HASHTYPE_SHA256))
    (image_base + 32 + 16) (image_base + 32) p ->
  p = image_base + 32 \/ p = image_base + 48.
Proof.
  induction 1 as [|p cmdsize _ IH Hlt Hload].
  - left. reflexivity.
  - destruct IH as [->| ->].
    + right. vm_compute in Hload. injection Hload as <-. reflexivity.
    + exfalso. unfold image_base in Hlt. lia.
Qed.

Lemma compute_cdhash_terminates_witness :
  fst (run_compute_cdhash toy_sha1 toy_sha256 17
         (signed_image (two_directories CS_HASHTYPE_SHA1 CS_HASHTYPE_SHA256)))
  <> OutOfFuel.
Proof.
  apply (compute_cdhash_terminates toy_sha1 toy_sha256 17
           (signed_image (two_directories CS_HASHTYPE_SHA1 CS_HASHTYPE_SHA256)) 16).
  - unfold low_buffer. split; by_computation.
  - by_computation.
  - by_computation.
  - intros p Hreach Hlt.
    apply signed_image_walk in Hreach. destruct Hreach as [->| ->].
    + by_computation.
    + exfalso. revert Hlt. by_computation.
Defined.

(** ** A truncated image *)

Lemma buf_size_truncate (n : nat) (m : buffer) :
  buf_size (truncate n m) = Z.min (Z.of_nat n) (buf_size m).
Proof.
  unfold buf_size, truncate. cbn [data]. rewrite length_firstn. lia.
Qed.

(** A read that the truncated buffer answers is answered alike by the whole
    buffer. *)
Lemma load_bytes_truncate (n : nat) (m : buffer) (a k : Z) (bs : list byte) :
  load_bytes (truncate n m) a k = Ret bs -> load_bytes m a k = Ret bs.
Proof.
  intros H. apply load_bytes_inv in H as (Hlo & Hhi & ->).
  rewrite buf_size_truncate in Hhi. cbn [base truncate] in *.
  unfold load_bytes, in_bounds.
  assert (E1 : (base m <=? a) = true) by (apply Z.leb_le; lia).
  assert (E2 : (a + k <=? base m + buf_size m) = true) by (apply Z.leb_le; lia).
  rewrite E1, E2. cbn [andb]. f_equal. unfold truncate. cbn [data base].
  rewrite skipn_firstn_comm, firstn_firstn. f_equal. lia.
Qed.

Lemma load32_truncate (n : nat) (m : buffer) (a x : Z) :
  load32 (truncate n m) a = Ret x -> load32 m a = Ret x.
Proof.
  unfold load32. intros H.
  destruct (load_bytes (truncate n m) a 4) as [bs| |] eqn:E; cbn [obind] in H;
    try discriminate.
  rewrite (load_bytes_truncate _ _ _ _ _ E). exact H.
Qed.

Lemma macho_find_load_command_truncate (n : nat) (m : buffer) (mh size size' command : Z) :
  forall (fuel : nat) (lc r : Z),
    macho_find_load_command fuel (truncate n m) mh size' command lc = Ret r ->
    macho_find_load_command fuel m mh size command lc = Ret r.
Proof.
  induction fuel as [|fuel IH]; intros lc r H; [discriminate|].
  cbn [macho_find_load_command] in *. unfold macho_next_load_command in *.
  destruct (lc =? NULL).
  - cbn [obind] in *.
    destruct (load32 (truncate n m) (mh + mh_sizeofcmds)) as [s| |] eqn:Es;
      cbn [obind] in H; try discriminate.
    rewrite (load32_truncate _ _ _ _ Es). cbn [obind].
    destruct (ptr_add mh sizeof_mach_header_64
              >=? ptr_add (ptr_add mh sizeof_mach_header_64) s);
      cbn [obind] in *; [exact H|].
    destruct (ptr_add mh sizeof_mach_header_64 =? NULL); [exact H|].
    destruct (load32 (truncate n m) (ptr_add mh sizeof_mach_header_64 + lc_cmd))
      as [cmd| |] eqn:Ec; cbn [obind] in H; try discriminate.
    rewrite (load32_truncate _ _ _ _ Ec). cbn [obind].
    destruct (cmd =? command); [exact H | apply IH; exact H].
  - destruct (load32 (truncate n m) (lc + lc_cmdsize)) as [c| |] eqn:Ecs;
      cbn [obind] in H; try discriminate.
    rewrite (load32_truncate _ _ _ _ Ecs). cbn [obind].
    destruct (load32 (truncate n m) (mh + mh_sizeofcmds)) as [s| |] eqn:Es;
      cbn [obind] in H; try discriminate.
    rewrite (load32_truncate _ _ _ _ Es). cbn [obind].
    destruct (ptr_add lc c >=? ptr_add (ptr_add mh sizeof_mach_header_64) s);
      cbn [obind] in *; [exact H|].
    destruct (ptr_add lc c =? NULL); [exact H|].
    destruct (load32 (truncate n m) (ptr_add lc c + lc_cmd))
      as [cmd| |] eqn:Ec; cbn [obind] in H; try discriminate.
    rewrite (load32_truncate _ _ _ _ Ec). cbn [obind].
    destruct (cmd =? command); [exact H | apply IH; exact H].
Qed.

Section Truncation.

Variable CC_SHA1 : list byte -> list byte.
Variable CC_SHA256 : list byte -> list byte.

(** X6: cut an image anywhere before the end of the signature region that
    its code-signature command declares, and [compute_cdhash] on what is left
    never returns [true] and writes nothing: it returns [false], or stops at
    a read past the cut. *)
Theorem compute_cdhash_rejects_truncation (fuel : nat) (m : buffer) (n : nat)
    (cs_cmd dataoff datasize : Z) :
  valid_buffer m ->
  macho_find_load_command fuel m (base m) (buf_size m) LC_CODE_SIGNATURE NULL = Ret cs_cmd ->
  cs_cmd <> NULL ->
  load32 m (cs_cmd + lc_dataoff) = Ret dataoff ->
  load32 m (cs_cmd + lc_datasize) = Ret datasize ->
  Z.of_nat n < dataoff + datasize ->
  fst (run_compute_cdhash CC_SHA1 CC_SHA256 fuel (truncate n m)) <> Ret true
  /\ snd (run_compute_cdhash CC_SHA1 CC_SHA256 fuel (truncate n m)) = [].
Proof.
  intros [Hb He] Hf Hnn Ho Hd Hcut.
  assert (Hfst : fst (run_compute_cdhash CC_SHA1 CC_SHA256 fuel (truncate n m)) <> Ret true).
  { unfold run_compute_cdhash, compute_cdhash, mbind, lift.
    destruct (macho_identify (truncate n m) (base (truncate n m)) (buf_size (truncate n m)))
      as [[|]| |]; cbn [fst]; try discriminate.
    destruct (macho_validate fuel (truncate n m) (base (truncate n m))
                (buf_size (truncate n m))) as [[|]| |]; cbn [fst negb]; try discriminate.
    unfold compute_cdhash_macho, mbind, lift.
    destruct (macho_find_load_command fuel (truncate n m) (base (truncate n m))
                (buf_size (truncate n m)) LC_CODE_SIGNATURE NULL) as [r| |] eqn:Hf';
      cbn [fst]; try discriminate.
    apply (macho_find_load_command_truncate n m (base m) (buf_size m)) in Hf'.
    cbn [base truncate] in Hf'. rewrite Hf in Hf'. injection Hf' as <-.
    destruct (cs_cmd =? NULL); [discriminate|].
    destruct (load32 (truncate n m) (cs_cmd + lc_dataoff)) as [o| |] eqn:Ho';
      cbn [fst]; try discriminate.
    apply load32_truncate in Ho'. rewrite Ho in Ho'. injection Ho' as <-.
    destruct (load32 (truncate n m) (cs_cmd + lc_datasize)) as [d| |] eqn:Hd';
      cbn [fst]; try discriminate.
    apply load32_truncate in Hd'. rewrite Hd in Hd'. injection Hd' as <-.
    pose proof (signature_region_ok_dec (base (truncate n m)) (buf_size (truncate n m))
                  dataoff datasize) as Hdec.
    cbv zeta in Hdec.
    match goal with |- context [negb ?c] => destruct c end; cbn [negb];
      [|discriminate].
    exfalso. pose proof (proj1 Hdec eq_refl) as Hok.
    pose proof (load32_inv _ _ _ Ho) as (_ & _ & Hor).
    pose proof (load32_inv _ _ _ Hd) as (_ & _ & Hdr).
    rewrite buf_size_truncate in Hok. cbn [base truncate] in Hok.
    unfold buf_size in *.
    apply signature_region_ok_no_wrap in Hok; try assumption; lia. }
  split; [exact Hfst|].
  unfold run_compute_cdhash in *.
  destruct (compute_cdhash_all_or_nothing CC_SHA1 CC_SHA256 fuel (truncate n m)
              (base (truncate n m)) (buf_size (truncate n m)) []) as [[d E]|[_ Hs]].
  - rewrite E in Hfst. cbn in Hfst. contradiction.
  - exact Hs.
Qed.

End Truncation.

Lemma compute_cdhash_rejects_truncation_witness :
  fst (run_compute_cdhash toy_sha1 toy_sha256 3 (truncate 4200 late_signature_image))
  <> Ret true
  /\ snd (run_compute_cdhash toy_sha1 toy_sha256 3 (truncate 4200 late_signature_image))
     = [].
Proof.
  apply (compute_cdhash_rejects_truncation toy_sha1 toy_sha256 3 late_signature_image
           4200 (image_base + 32) 4096 204).
  - unfold valid_buffer. split; by_computation.
  - by_computation.
  - by_computation.
  - by_computation.
  - by_computation.
  - by_computation.
Defined.

(** ** What a success means *)

(** What the search returns, when not [NULL], is a command of the type asked
    for. *)
Lemma macho_find_load_command_matches (m : buffer) (mh size command : Z) :
  forall (fuel : nat) (lc r : Z),
    macho_find_load_command fuel m mh size command lc = Ret r ->
    r <> NULL ->
    load32 m (r + lc_cmd) = Ret command.
Proof.
  induction fuel as [|fuel IH]; intros lc r H Hnn; [discriminate|].
  cbn [macho_find_load_command] in H.
  destruct (macho_next_load_command m mh size lc) as [loadcmd| |];
    cbn [obind] in H; try discriminate.
  destruct (loadcmd =? NULL) eqn:En.
  - injection H as <-. apply Z.eqb_eq in En. contradiction.
  - destruct (load32 m (loadcmd + lc_cmd)) as [cmd| |] eqn:Ec; cbn [obind] in H;
      try discriminate.
    destruct (cmd =? command) eqn:Eq.
    + injection H as <-. apply Z.eqb_eq in Eq. subst cmd. exact Ec.
    + apply (IH loadcmd r H Hnn).
Qed.

(** A scan that ran to the end classified every entry. *)
Lemma cs_superblob_scan_slots (n : nat) (m : buffer) (sb size : Z) :
  forall (i : Z) (b b' : best),
    cs_superblob_scan n m sb size i b = Ret (Some b') ->
    exists slots, slots_from n m sb size i = Ret slots.
Proof.
  induction n as [|n IH]; intros i b b' H.
  - cbn. eauto.
  - cbn [cs_superblob_scan] in H. cbn [slots_from]. unfold classify. cbv zeta in *.
    destruct (load_be32 m (index_at sb i + bi_type)) as [type| |];
      cbn [obind] in *; try discriminate.
    destruct (load_be32 m (index_at sb i + bi_offset)) as [offset| |];
      cbn [obind] in *; try discriminate.
    destruct (offset >? size); [discriminate|].
    destruct (is_codedirectory_slot type).
    + destruct (cs_codedirectory_validate m (ptr_add sb offset) (size - offset))
        as [cd_size| |]; cbn [obind] in *; try discriminate.
      destruct (cd_size =? 0); [discriminate|].
      rewrite cs_codedirectory_rank_eq in H.
      destruct (load8 m (ptr_add sb offset + cd_hashType)) as [h| |];
        cbn [obind] in *; try discriminate.
      destruct (IH _ _ _ H) as [rest Er]. rewrite Er. cbn [obind]. eauto.
    + cbn [obind]. destruct (IH _ _ _ H) as [rest Er]. rewrite Er. cbn [obind]. eauto.
Qed.

Section Success.

Variable CC_SHA1 : list byte -> list byte.
Variable CC_SHA256 : list byte -> list byte.

Lemma cs_codedirectory_cdhash_inv (m : buffer) (cd size : Z) (log log' : cdhash_log) :
  cs_codedirectory_cdhash CC_SHA1 CC_SHA256 m cd size log = (Ret true, log') ->
  exists len h bytes,
    load_be32 m (cd + blob_length) = Ret len
    /\ load8 m (cd + cd_hashType) = Ret h
    /\ load_bytes m cd len = Ret bytes
    /\ ((h = CS_HASHTYPE_SHA1 /\ log' = log ++ [firstn CS_CDHASH_LEN (CC_SHA1 bytes)])
        \/ (h = CS_HASHTYPE_SHA256
            /\ log' = log ++ [firstn CS_CDHASH_LEN (CC_SHA256 bytes)])).
Proof.
  unfold cs_codedirectory_cdhash, cdhash_sha1, cdhash_sha256, mbind, lift, memcpy_cdhash, mret.
  intros H.
  destruct (load_be32 m (cd + blob_length)) as [len| |] eqn:El; try discriminate.
  destruct (load8 m (cd + cd_hashType)) as [h| |] eqn:Eh; try discriminate.
  rewrite (CC_LONG_small _ _ _ El) in H.
  exists len, h.
  destruct (h =? CS_HASHTYPE_SHA1) eqn:E1.
  - apply Z.eqb_eq in E1.
    destruct (load_bytes m cd len) as [bytes| |]; try discriminate.
    injection H as <-. exists bytes. repeat split; auto.
  - destruct (h =? CS_HASHTYPE_SHA256) eqn:E2; [|discriminate].
    apply Z.eqb_eq in E2.
    destruct (load_bytes m cd len) as [bytes| |]; try discriminate.
    injection H as <-. exists bytes. repeat split; auto.
Qed.

Lemma cs_superblob_cdhash_inv (m : buffer) (sb size : Z) (log log' : cdhash_log) :
  cs_superblob_cdhash CC_SHA1 CC_SHA256 m sb size log = (Ret true, log') ->
  exists count i type offset digest,
    load_be32 m (sb + sb_count) = Ret count
    /\ 0 <= i < count
    /\ load_be32 m (index_at sb i + bi_type) = Ret type
    /\ is_codedirectory_slot type = true
    /\ load_be32 m (index_at sb i + bi_offset) = Ret offset
    /\ 0 <= offset <= size
    /\ digest_of_directory CC_SHA1 CC_SHA256 m (ptr_add sb offset) (size - offset) digest
    /\ log' = log ++ [digest].
Proof.
  unfold cs_superblob_cdhash, mbind, lift. intros H.
  destruct (load_be32 m (sb + sb_count)) as [count| |] eqn:Ec; try discriminate.
  destruct (cs_superblob_scan (Z.to_nat count) m sb size 0 no_best) as [[b|]| |] eqn:Es;
    try discriminate.
  destruct (best_cd b =? NULL) eqn:En; [discriminate|].
  destruct (cs_superblob_scan_slots _ _ _ _ _ _ _ Es) as [slots Hslots].
  rewrite (cs_superblob_scan_select _ _ _ _ _ _ _ Hslots) in Es.
  injection Es as Hsel. apply select_some in Hsel.
  destruct (fold_prefer_origin slots no_best) as [E|(cd & l & h & Hin & _ & E)].
  { rewrite E in Hsel. subst b. discriminate. }
  rewrite E in Hsel. subst b. cbn [best_cd best_cd_size] in *.
  destruct (slots_from_In _ _ _ _ _ _ _ Hslots Hin) as (j & Hj & Hc).
  apply classify_candidate in Hc
    as (type & offset & Ht & Ho & Hq & Hor & Hcd & Hv & Hnz & Hh).
  destruct (cs_codedirectory_validate_inv _ _ _ _ Hv Hnz) as (Hs & Hm & Hl & Hlen).
  destruct (cs_codedirectory_cdhash_inv _ _ _ _ _ H) as (len' & h' & bytes & Hl' & Hh' & Hb & Hd).
  assert (len' = l) by congruence. subst len'.
  assert (h' = h) by congruence. subst h'.
  pose proof (load_be32_inv _ _ _ Ec) as (_ & _ & Hcr).
  exists count, j, type, offset.
  destruct Hd as [[-> ->]|[-> ->]]; eexists;
    (split; [reflexivity|]); (split; [lia|]);
    (split; [exact Ht|]); (split; [exact Hq|]); (split; [exact Ho|]);
    (split; [exact Hor|]); (split; [|reflexivity]);
    rewrite <- Hcd; exists l; eexists; exists bytes; repeat split; eauto; lia.
Qed.

Lemma csblob_cdhash_inv (m : buffer) (blob size : Z) (log log' : cdhash_log) :
  csblob_cdhash CC_SHA1 CC_SHA256 m blob size log = (Ret true, log') ->
  exists cd avail digest,
    digest_of_directory CC_SHA1 CC_SHA256 m cd avail digest /\ log' = log ++ [digest].
Proof.
  unfold csblob_cdhash, mbind, lift. intros H.
  destruct (size <? sizeof_CS_GenericBlob); [discriminate|].
  destruct (load_be32 m (blob + blob_magic)) as [magic| |]; try discriminate.
  destruct (load_be32 m (blob + blob_length)) as [len| |] eqn:El; try discriminate.
  destruct (len >? size); [discriminate|].
  destruct (magic =? CSMAGIC_EMBEDDED_SIGNATURE).
  - destruct (cs_superblob_validate m blob len) as [ok| |]; try discriminate.
    destruct (ok =? 0); [discriminate|].
    destruct (cs_superblob_cdhash_inv _ _ _ _ _ H)
      as (count & i & type & offset & digest & _ & _ & _ & _ & _ & _ & Hd & ->).
    eauto.
  - destruct (magic =? CSMAGIC_CODEDIRECTORY); [|discriminate].
    destruct (cs_codedirectory_validate m blob len) as [ok| |] eqn:Hv; try discriminate.
    destruct (ok =? 0) eqn:Ez; [discriminate|]. apply Z.eqb_neq in Ez.
    destruct (cs_codedirectory_validate_inv _ _ _ _ Hv Ez) as (Hs & Hm & Hl & Hlen).
    destruct (cs_codedirectory_cdhash_inv _ _ _ _ _ H)
      as (len' & h & bytes & Hl' & Hh & Hb & Hd).
    assert (len' = ok) by congruence. subst len'.
    exists blob, len.
    destruct Hd as [[-> ->]|[-> ->]]; eexists; (split; [|reflexivity]);
      exists ok; eexists; exists bytes; repeat split; eauto; lia.
Qed.

(** X7: when [cs_superblob_cdhash] returns [true], what it wrote is the
    cdhash of a code directory named by an index entry of the super-blob: the
    entry has a code-directory slot type and an offset of at most [size], and
    at that offset, within the [size - offset] bytes that are left, lies a
    validated code directory of hash type SHA1 or SHA256 whose declared bytes
    were hashed. *)
Theorem cs_superblob_cdhash_success (m : buffer) (sb size : Z) (log log' : cdhash_log) :
  cs_superblob_cdhash CC_SHA1 CC_SHA256 m sb size log = (Ret true, log') ->
  exists count i type offset digest,
    load_be32 m (sb + sb_count) = Ret count
    /\ 0 <= i < count
    /\ load_be32 m (index_at sb i + bi_type) = Ret type
    /\ is_codedirectory_slot type = true
    /\ load_be32 m (index_at sb i + bi_offset) = Ret offset
    /\ 0 <= offset <= size
    /\ digest_of_directory CC_SHA1 CC_SHA256 m (ptr_add sb offset) (size - offset) digest
    /\ log' = log ++ [digest].
Proof.
  exact (cs_superblob_cdhash_inv m sb size log log').
Qed.

(** X8: when [compute_cdhash] returns [true], the size is at least a page,
    the buffer starts with the 64-bit Mach-O magic, a load command of type
    [LC_CODE_SIGNATURE] was found whose [dataoff] and [datasize] pass the test
    on the signature region, and the one thing written is the cdhash of a
    code directory whose hashed bytes all lie in the buffer. *)
Theorem compute_cdhash_success (fuel : nat) (m : buffer) (file size : Z)
    (log log' : cdhash_log) :
  compute_cdhash CC_SHA1 CC_SHA256 fuel m file size log = (Ret true, log') ->
  0x1000 <= size
  /\ load32 m (file + mh_magic) = Ret MH_MAGIC_64
  /\ (exists cs_cmd dataoff datasize,
         macho_find_load_command fuel m file size LC_CODE_SIGNATURE NULL = Ret cs_cmd
         /\ load32 m (cs_cmd + lc_cmd) = Ret LC_CODE_SIGNATURE
         /\ load32 m (cs_cmd + lc_dataoff) = Ret dataoff
         /\ load32 m (cs_cmd + lc_datasize) = Ret datasize
         /\ signature_region_ok file size dataoff datasize)
  /\ exists cd avail digest,
      digest_of_directory CC_SHA1 CC_SHA256 m cd avail digest /\ log' = log ++ [digest].
Proof.
  unfold compute_cdhash, mbind, lift. intros H.
  destruct (macho_identify m file size) as [[|]| |]; try discriminate.
  destruct (macho_validate fuel m file size) as [[|]| |] eqn:Hv; try discriminate.
  cbn [negb] in H.
  destruct (macho_validate_inv _ _ _ _ Hv) as (Hsz & Hmagic & _ & _).
  split; [exact Hsz|]. split; [exact Hmagic|].
  unfold compute_cdhash_macho, mbind, lift in H.
  destruct (macho_find_load_command fuel m file size LC_CODE_SIGNATURE NULL)
    as [cs_cmd| |] eqn:Hf; try discriminate.
  destruct (cs_cmd =? NULL) eqn:En; [discriminate|]. apply Z.eqb_neq in En.
  destruct (load32 m (cs_cmd + lc_dataoff)) as [dataoff| |] eqn:Ho; try discriminate.
  destruct (load32 m (cs_cmd + lc_datasize)) as [datasize| |] eqn:Hd; try discriminate.
  pose proof (signature_region_ok_dec file size dataoff datasize) as Hdec.
  cbv zeta in Hdec.
  match type of H with context [negb ?c] => destruct c end; cbn [negb] in H;
    [|discriminate].
  split.
  - exists cs_cmd, dataoff, datasize.
    split; [reflexivity|].
    split; [apply (macho_find_load_command_matches _ _ _ _ _ _ _ Hf En)|].
    split; [exact Ho|]. split; [exact Hd|]. apply Hdec. reflexivity.
  - apply (csblob_cdhash_inv _ _ _ _ _ H).
Qed.

End Success.

Lemma cs_superblob_cdhash_success_witness :
  exists count i type offset digest,
    load_be32 (blob_buffer (two_directories CS_HASHTYPE_SHA1 CS_HASHTYPE_SHA256))
      (image_base + sb_count) = Ret count
    /\ 0 <= i < count
    /\ load_be32 (blob_buffer (two_directories CS_HASHTYPE_SHA1 CS_HASHTYPE_SHA256))
         (index_at image_base i + bi_type) = Ret type
    /\ is_codedirectory_slot type = true
    /\ load_be32 (blob_buffer (two_directories CS_HASHTYPE_SHA1 CS_HASHTYPE_SHA256))
         (index_at image_base i + bi_offset) = Ret offset
    /\ 0 <= offset <= 204
    /\ digest_of_directory toy_sha1 toy_sha256
         (blob_buffer (two_directories CS_HASHTYPE_SHA1 CS_HASHTYPE_SHA256))
         (ptr_add image_base offset) (204 - offset) digest
    /\ [firstn CS_CDHASH_LEN (toy_sha256 (code_directory 88 CS_HASHTYPE_SHA256))]
       = [] ++ [digest].
Proof.
  apply (cs_superblob_cdhash_success toy_sha1 toy_sha256
           (blob_buffer (two_directories CS_HASHTYPE_SHA1 CS_HASHTYPE_SHA256))
           image_base 204 []).
  by_computation.
Defined.

Lemma compute_cdhash_success_witness :
  0x1000 <= 4300
  /\ load32 late_signature_image (image_base + mh_magic) = Ret MH_MAGIC_64
  /\ (exists cs_cmd dataoff datasize,
         macho_find_load_command 3 late_signature_image image_base 4300
           LC_CODE_SIGNATURE NULL = Ret cs_cmd
         /\ load32 late_signature_image (cs_cmd + lc_cmd) = Ret LC_CODE_SIGNATURE
         /\ load32 late_signature_image (cs_cmd + lc_dataoff) = Ret dataoff
         /\ load32 late_signature_image (cs_cmd + lc_datasize) = Ret datasize
         /\ signature_region_ok image_base 4300 dataoff datasize)
  /\ exists cd avail digest,
      digest_of_directory toy_sha1 toy_sha256 late_signature_image cd avail digest
      /\ [firstn CS_CDHASH_LEN (toy_sha256 (code_directory 88 CS_HASHTYPE_SHA256))]
         = [] ++ [digest].
Proof.
  apply (compute_cdhash_success toy_sha1 toy_sha256 3 late_signature_image
           image_base 4300 []).
  by_computation.
Defined.

(** ** Super-blob validation *)

(** X9: a super-blob that [cs_superblob_validate] accepts has at least the
    header in [size] bytes, the embedded-signature magic, a declared length
    of at most [size] (the value returned) and fewer than 0x10000 index
    entries; and, away from the end of the address space, the whole index
    lies within [size] bytes of the start. *)
Theorem cs_superblob_validate_spec (m : buffer) (sb size len : Z) :
  cs_superblob_validate m sb size = Ret len ->
  len <> 0 ->
  sizeof_CS_SuperBlob <= size
  /\ load_be32 m (sb + blob_magic) = Ret CSMAGIC_EMBEDDED_SIGNATURE
  /\ load_be32 m (sb + blob_length) = Ret len
  /\ len <= size
  /\ exists count,
      load_be32 m (sb + sb_count) = Ret count
      /\ 0 <= count < 0x10000
      /\ (0 <= sb -> sb + size < 2 ^ 64 ->
          sb + sb_index + sizeof_CS_BlobIndex * 0x10000 <= 2 ^ 64 ->
          sb_index + sizeof_CS_BlobIndex * count <= size).
Proof.
  unfold cs_superblob_validate. intros H Hnz.
  destruct (size <? sizeof_CS_SuperBlob) eqn:Es; [injection H as <-; contradiction|].
  apply Z.ltb_ge in Es.
  destruct (load_be32 m (sb + blob_magic)) as [magic| |] eqn:Em; cbn [obind] in H;
    try discriminate.
  destruct (magic =? CSMAGIC_EMBEDDED_SIGNATURE) eqn:Eq; cbn [negb] in H;
    [|injection H as <-; contradiction].
  apply Z.eqb_eq in Eq. subst magic.
  destruct (load_be32 m (sb + blob_length)) as [l| |] eqn:El; cbn [obind] in H;
    try discriminate.
  pose proof (Zgt_cases l size) as Hl.
  destruct (l >? size); [injection H as <-; contradiction|].
  destruct (load_be32 m (sb + sb_count)) as [count| |] eqn:Ec;
    cbn [obind] in H; try discriminate.
  cbv zeta in H.
  destruct (count >=? 65536) eqn:E1; cbn [orb] in H;
    [injection H as <-; contradiction|].
  destruct (index_at sb count >? ptr_add sb size) eqn:E2;
    [injection H as <-; contradiction|].
  injection H as <-.
  pose proof (load_be32_inv _ _ _ Ec) as (_ & _ & Hr).
  pose proof (Zge_cases count 65536) as H1. rewrite E1 in H1.
  pose proof (Zgt_cases (index_at sb count) (ptr_add sb size)) as H2. rewrite E2 in H2.
  repeat split; auto.
  exists count. split; [reflexivity|]. split; [lia|].
  intros Hsb Hend Hroom.
  unfold index_at, ptr_add, sb_index, sizeof_CS_BlobIndex, sizeof_CS_SuperBlob in *.
  change (2 ^ 64) with 18446744073709551616 in *.
  rewrite (Z.mod_small (sb + size)) in H2 by lia.
  rewrite Z.mod_small in H2 by lia. lia.
Qed.

Lemma cs_superblob_validate_spec_witness :
  sizeof_CS_SuperBlob <= 204
  /\ load_be32 (blob_buffer (two_directories CS_HASHTYPE_SHA1 CS_HASHTYPE_SHA256))
       (image_base + blob_magic) = Ret CSMAGIC_EMBEDDED_SIGNATURE
  /\ load_be32 (blob_buffer (two_directories CS_HASHTYPE_SHA1 CS_HASHTYPE_SHA256))
       (image_base + blob_length) = Ret 204
  /\ 204 <= 204
  /\ exists count,
      load_be32 (blob_buffer (two_directories CS_HASHTYPE_SHA1 CS_HASHTYPE_SHA256))
        (image_base + sb_count) = Ret count
      /\ 0 <= count < 0x10000
      /\ (0 <= image_base -> image_base + 204 < 2 ^ 64 ->
          image_base + sb_index + sizeof_CS_BlobIndex * 0x10000 <= 2 ^ 64 ->
          sb_index + sizeof_CS_BlobIndex * count <= 204).
Proof.
  apply (cs_superblob_validate_spec
           (blob_buffer (two_directories CS_HASHTYPE_SHA1 CS_HASHTYPE_SHA256))
           image_base 204 204); by_computation.
Defined.

(** ** A bare code directory *)

Section BareDirectory.

Variable CC_SHA1 : list byte -> list byte.
Variable CC_SHA256 : list byte -> list byte.

(** X10: for a blob that starts with the code-directory magic,
    [csblob_cdhash] returns [false] when the declared length is below the
    size of the structure or above [size]; otherwise it hashes exactly the
    declared-length bytes with SHA-1 or SHA-256 as the hash type says, and
    returns [false] for any other hash type. *)
Theorem csblob_cdhash_bare_directory (m : buffer) (blob size len : Z) (log : cdhash_log) :
  sizeof_CS_GenericBlob <= size ->
  load_be32 m (blob + blob_magic) = Ret CSMAGIC_CODEDIRECTORY ->
  load_be32 m (blob + blob_length) = Ret len ->
  (len < sizeof_CS_CodeDirectory \/ size < len ->
   csblob_cdhash CC_SHA1 CC_SHA256 m blob size log = (Ret false, log))
  /\ (forall h bytes,
         sizeof_CS_CodeDirectory <= len <= size ->
         load8 m (blob + cd_hashType) = Ret h ->
         load_bytes m blob len = Ret bytes ->
         (h = CS_HASHTYPE_SHA1 ->
          csblob_cdhash CC_SHA1 CC_SHA256 m blob size log
          = (Ret true, log ++ [firstn CS_CDHASH_LEN (CC_SHA1 bytes)]))
         /\ (h = CS_HASHTYPE_SHA256 ->
             csblob_cdhash CC_SHA1 CC_SHA256 m blob size log
             = (Ret true, log ++ [firstn CS_CDHASH_LEN (CC_SHA256 bytes)]))
         /\ (h <> CS_HASHTYPE_SHA1 -> h <> CS_HASHTYPE_SHA256 ->
             csblob_cdhash CC_SHA1 CC_SHA256 m blob size log = (Ret false, log))).
Proof.
  intros Hs Hm Hl.
  assert (E : csblob_cdhash CC_SHA1 CC_SHA256 m blob size log
              = if len >? size then (Ret false, log)
                else match cs_codedirectory_validate m blob len with
                     | Ret ok => if ok =? 0 then (Ret false, log)
                                 else cs_codedirectory_cdhash CC_SHA1 CC_SHA256 m blob len log
                     | Fault => (Fault, log)
                     | OutOfFuel => (OutOfFuel, log)
                     end).
  { unfold csblob_cdhash, mbind, lift, mret.
    apply Z.ltb_ge in Hs. rewrite Hs, Hm, Hl.
    destruct (len >? size); [reflexivity|].
    change (CSMAGIC_CODEDIRECTORY =? CSMAGIC_EMBEDDED_SIGNATURE) with false.
    change (CSMAGIC_CODEDIRECTORY =? CSMAGIC_CODEDIRECTORY) with true.
    cbv iota.
    destruct (cs_codedirectory_validate m blob len) as [ok| |]; try reflexivity.
    destruct (ok =? 0); reflexivity. }
  pose proof (load_be32_inv _ _ _ Hl) as (_ & _ & Hlr).
  pose proof (Zgt_cases len size) as Hc.
  split.
  - intros Hbad. rewrite E. destruct (len >? size); [reflexivity|].
    destruct Hbad as [Hshort|Hlong]; [|lia].
    unfold cs_codedirectory_validate.
    apply Z.ltb_lt in Hshort. rewrite Hshort. reflexivity.
  - intros h bytes Hlen Hh Hb. rewrite E.
    destruct (len >? size); [lia|].
    rewrite (cs_codedirectory_validate_ok m blob len len) by (auto; lia).
    assert (Ez : (len =? 0) = false).
    { apply Z.eqb_neq. unfold sizeof_CS_CodeDirectory in Hlen. lia. }
    rewrite Ez.
    split; [|split].
    + intros ->. apply (cs_codedirectory_cdhash_sha1 _ _ _ _ _ len); auto.
    + intros ->. apply (cs_codedirectory_cdhash_sha256 _ _ _ _ _ len); auto.
    + intros H1 H2. apply (cs_codedirectory_cdhash_unsupported _ _ _ _ _ len h); auto.
Qed.

End BareDirectory.

Lemma csblob_cdhash_bare_directory_witness :
  csblob_cdhash toy_sha1 toy_sha256 (cd_buffer 88 CS_HASHTYPE_SHA256 100) image_base 100 []
  = (Ret true, [] ++ [firstn CS_CDHASH_LEN (toy_sha256 (code_directory 88 CS_HASHTYPE_SHA256))]).
Proof.
  apply (proj2 (csblob_cdhash_bare_directory toy_sha1 toy_sha256
                  (cd_buffer 88 CS_HASHTYPE_SHA256 100) image_base 100 88 []
                  ltac:(by_computation) ltac:(by_computation) ltac:(by_computation))
           CS_HASHTYPE_SHA256 (code_directory 88 CS_HASHTYPE_SHA256)).
  - split; by_computation.
  - by_computation.
  - by_computation.
  - reflexivity.
Defined.

(** ** When the walk stays inside the buffer *)

Lemma macho_validate_loop_no_fault (m : buffer) (lc_end : Z) :
  lc_end + lc_cmdsize + 3 <= base m + buf_size m ->
  lc_end + 2 ^ 31 <= 2 ^ 64 ->
  forall (fuel : nat) (lc_p : Z),
    0 <= lc_p ->
    base m <= lc_p ->
    macho_validate_loop fuel m lc_p lc_end <> Fault.
Proof.
  intros Hend Hroom. unfold lc_cmdsize in Hend.
  change (2 ^ 31) with 2147483648 in Hroom.
  change (2 ^ 64) with 18446744073709551616 in Hroom.
  induction fuel as [|fuel IH]; intros lc_p Hp Hlo; [discriminate|].
  cbn [macho_validate_loop].
  destruct (lc_p <? lc_end) eqn:El; [|discriminate]. apply Z.ltb_lt in El.
  destruct (load32_ok m (lc_p + lc_cmdsize)) as [cmdsize Ec];
    [unfold lc_cmdsize; lia | unfold lc_cmdsize; lia |].
  rewrite Ec. cbn [obind].
  pose proof (Zge_cases cmdsize 2147483648) as Hc.
  destruct (cmdsize >=? 2147483648); [discriminate|]. cbv zeta.
  apply load32_inv in Ec as (_ & _ & Hr).
  assert (En : ptr_add lc_p cmdsize = lc_p + cmdsize).
  { unfold ptr_add. apply Z.mod_small.
    change (2 ^ 64) with 18446744073709551616. lia. }
  rewrite En.
  destruct (lc_p + cmdsize >? lc_end); [discriminate|].
  apply IH; lia.
Qed.

Lemma macho_validate_no_fault (fuel : nat) (m : buffer) (sizeofcmds : Z) :
  low_buffer m ->
  load32 m (base m + mh_sizeofcmds) = Ret sizeofcmds ->
  sizeof_mach_header_64 + sizeofcmds + lc_cmdsize + 3 <= buf_size m ->
  macho_validate fuel m (base m) (buf_size m) <> Fault.
Proof.
  intros [Hb He] Hs Hmargin.
  change (2 ^ 63) with 9223372036854775808 in He.
  pose proof (load32_inv _ _ _ Hs) as (_ & _ & Hsr).
  change (2 ^ 32) with 4294967296 in Hsr.
  unfold sizeof_mach_header_64, lc_cmdsize in Hmargin.
  unfold macho_validate, macho_identify.
  destruct (buf_size m <? 4096) eqn:Ez; [discriminate|]. apply Z.ltb_ge in Ez.
  destruct (load32_ok m (base m + mh_magic)) as [magic Em];
    [unfold mh_magic; lia | unfold mh_magic; lia |].
  rewrite Em. cbn [obind].
  destruct (negb (magic =? MH_MAGIC_64)); cbn [obind negb]; [discriminate|].
  rewrite Hs. cbn [obind].
  destruct (sizeofcmds >? buf_size m); [discriminate|]. cbv zeta.
  assert (E1 : ptr_add (base m) sizeof_mach_header_64 = base m + 32).
  { unfold ptr_add, sizeof_mach_header_64. apply Z.mod_small.
    change (2 ^ 64) with 18446744073709551616. lia. }
  assert (E2 : ptr_add (base m + 32) sizeofcmds = base m + 32 + sizeofcmds).
  { unfold ptr_add. apply Z.mod_small.
    change (2 ^ 64) with 18446744073709551616. lia. }
  rewrite E1, E2.
  apply macho_validate_loop_no_fault.
  - unfold lc_cmdsize. lia.
  - change (2 ^ 31) with 2147483648. change (2 ^ 64) with 18446744073709551616. lia.
  - lia.
  - lia.
Qed.

Lemma load_commands_below (m : buffer) (lc_end : Z) :
  forall (fuel : nat) (lc_p : Z) (cmds : list Z),
    load_commands fuel m lc_p lc_end = Ret cmds ->
    Forall (fun lc => lc < lc_end) cmds.
Proof.
  induction fuel as [|fuel IH]; intros lc_p cmds H; [discriminate|].
  cbn [load_commands] in H.
  destruct (lc_p <? lc_end) eqn:El.
  - apply Z.ltb_lt in El.
    destruct (load32 m (lc_p + lc_cmdsize)) as [c| |]; cbn [obind] in H; try discriminate.
    destruct (load_commands fuel m (ptr_add lc_p c) lc_end) as [rest| |] eqn:Er;
      cbn [obind] in H; try discriminate.
    injection H as <-. constructor; [exact El | apply (IH _ _ Er)].
  - injection H as <-. constructor.
Qed.

Lemma first_command_in (m : buffer) (command : Z) (cmds : list Z) :
  first_command m command cmds = NULL \/ In (first_command m command cmds) cmds.
Proof.
  induction cmds as [|lc rest IH]; [left; reflexivity|].
  cbn [first_command].
  destruct (load32 m (lc + lc_cmd)) as [cmd| |].
  - destruct (cmd =? command); [right; left; reflexivity|].
    destruct IH as [E|Hin]; [left; exact E | right; right; exact Hin].
  - destruct IH as [E|Hin]; [left; exact E | right; right; exact Hin].
  - destruct IH as [E|Hin]; [left; exact E | right; right; exact Hin].
Qed.

(** X11: for a buffer in the lower half of the address space and a call on
    the whole buffer, [macho_validate] reads nothing outside the buffer when
    the table of load commands ends at least seven bytes before the end of
    the buffer: [sizeof(mach_header_64) + sizeofcmds + 7 <= size].  (The test
    it makes, [sizeofcmds <= size], does not give that.) *)
Theorem macho_validate_reads_in_bounds (fuel : nat) (m : buffer) (sizeofcmds : Z) :
  low_buffer m ->
  load32 m (base m + mh_sizeofcmds) = Ret sizeofcmds ->
  sizeof_mach_header_64 + sizeofcmds + lc_cmdsize + 3 <= buf_size m ->
  macho_validate fuel m (base m) (buf_size m) <> Fault.
Proof.
  exact (macho_validate_no_fault fuel m sizeofcmds).
Qed.

Section WholeCall.

Variable CC_SHA1 : list byte -> list byte.
Variable CC_SHA256 : list byte -> list byte.

(** X12: for a buffer in the lower half of the address space,
    [compute_cdhash] on the whole buffer reads nothing outside it when the
    table of load commands ends at least fifteen bytes before the end of the
    buffer, so that the last command that can start inside the table has its
    [dataoff] and [datasize] fields in the buffer. *)
Theorem compute_cdhash_reads_in_bounds (fuel : nat) (m : buffer) (sizeofcmds : Z) :
  low_buffer m ->
  load32 m (base m + mh_sizeofcmds) = Ret sizeofcmds ->
  sizeof_mach_header_64 + sizeofcmds + lc_datasize + 3 <= buf_size m ->
  fst (run_compute_cdhash CC_SHA1 CC_SHA256 fuel m) <> Fault.
Proof.
  intros Hlow Hs Hmargin. pose proof Hlow as [Hb He].
  change (2 ^ 63) with 9223372036854775808 in He.
  pose proof (load32_inv _ _ _ Hs) as (_ & _ & Hsr).
  change (2 ^ 32) with 4294967296 in Hsr.
  unfold sizeof_mach_header_64, lc_datasize in Hmargin.
  assert (Hvnf : macho_validate fuel m (base m) (buf_size m) <> Fault).
  { apply (macho_validate_no_fault fuel m sizeofcmds Hlow Hs).
    unfold sizeof_mach_header_64, lc_cmdsize. lia. }
  unfold run_compute_cdhash, compute_cdhash, mbind, lift.
  destruct (macho_identify m (base m) (buf_size m)) as [[|]| |] eqn:Hid;
    cbn [fst]; try discriminate.
  2:{ unfold macho_identify in Hid. destruct (buf_size m <? 4096) eqn:Ez; [discriminate|].
      apply Z.ltb_ge in Ez.
      destruct (load32_ok m (base m + mh_magic)) as [magic Em];
        [unfold mh_magic; lia | unfold mh_magic; lia |].
      rewrite Em in Hid. cbn in Hid. destruct (negb (magic =? MH_MAGIC_64)); discriminate. }
  destruct (macho_validate fuel m (base m) (buf_size m)) as [[|]| |] eqn:Hv;
    cbn [negb fst]; try discriminate; [|contradiction].
  destruct (macho_find_after_validate fuel m (base m) (buf_size m) LC_CODE_SIGNATURE
              ltac:(change (2 ^ 63) with 9223372036854775808; lia) ltac:(lia) Hv)
    as (s' & cmds & Hs' & Hcmds & Hfind).
  assert (s' = sizeofcmds) by congruence. subst s'.
  destruct (compute_cdhash_macho_total CC_SHA1 CC_SHA256 fuel m
              (first_command m LC_CODE_SIGNATURE cmds) [] Hlow Hfind) as (b & log' & E).
  - intros Hnn.
    pose proof (macho_find_load_command_matches _ _ _ _ _ _ _ Hfind Hnn) as Hcmd.
    apply load32_inv in Hcmd as (Hlo & _ & _). unfold lc_cmd in Hlo.
    destruct (first_command_in m LC_CODE_SIGNATURE cmds) as [E|Hin]; [contradiction|].
    pose proof (load_commands_below _ _ _ _ _ Hcmds) as Hbelow.
    rewrite Forall_forall in Hbelow. specialize (Hbelow _ Hin).
    unfold sizeof_mach_header_64 in Hbelow. unfold lc_datasize. lia.
  - rewrite E. discriminate.
Qed.

End WholeCall.

Lemma macho_validate_reads_in_bounds_witness :
  macho_validate 3 late_signature_image (base late_signature_image)
    (buf_size late_signature_image) <> Fault.
Proof.
  apply (macho_validate_reads_in_bounds 3 late_signature_image 16).
  - unfold low_buffer. split; by_computation.
  - by_computation.
  - by_computation.
Defined.

Lemma compute_cdhash_reads_in_bounds_witness :
  fst (run_compute_cdhash toy_sha1 toy_sha256 3 late_signature_image) <> Fault.
Proof.
  apply (compute_cdhash_reads_in_bounds toy_sha1 toy_sha256 3 late_signature_image 16).
  - unfold low_buffer. split; by_computation.
  - by_computation.
  - by_computation.
Defined.

(** ** The order of the index *)

Lemma select_none_inv (slots : list slot) :
  forall b, select slots b = None -> In OutOfRange slots \/ In Malformed slots.
Proof.
  induction slots as [|s rest IH]; intros b H; [discriminate|].
  destruct s; cbn [select] in H.
  - left. left. reflexivity.
  - destruct (IH _ H) as [Hin|Hin]; [left | right]; right; exact Hin.
  - right. left. reflexivity.
  - destruct (IH _ H) as [Hin|Hin]; [left | right]; right; exact Hin.
Qed.

(** More candidates cannot lower the rank of the selected one. *)
Lemma fold_prefer_rank_le (slots slots' : list slot) :
  (forall s, In s slots -> In s slots') ->
  best_cd_rank (fold_left prefer slots no_best)
  <= best_cd_rank (fold_left prefer slots' no_best).
Proof.
  intros Hsub.
  destruct (fold_prefer_max slots' no_best) as [H0 Hmax].
  destruct (fold_prefer_origin slots no_best) as [E|(cd & len & h & Hin & _ & E)].
  - rewrite E. exact H0.
  - rewrite E. cbn [best_cd_rank]. apply (Hmax cd len h). apply Hsub. exact Hin.
Qed.

(** X13: the index order does not decide whether the scan of
    [cs_superblob_cdhash] gives up nor the rank it selects: for two
    super-blobs whose entries are the same up to their order, either both
    scans give up or both select a code directory, of the same rank (and so,
    when the rank is not 0, of the same hash type). *)
Theorem cs_superblob_scan_order_independent (m m' : buffer)
    (sb sb' size size' count count' : Z) (slots slots' : list slot) :
  superblob_slots m sb size = Ret slots ->
  superblob_slots m' sb' size' = Ret slots' ->
  load_be32 m (sb + sb_count) = Ret count ->
  load_be32 m' (sb' + sb_count) = Ret count' ->
  Permutation slots slots' ->
  match cs_superblob_scan (Z.to_nat count) m sb size 0 no_best,
        cs_superblob_scan (Z.to_nat count') m' sb' size' 0 no_best with
  | Ret (Some b), Ret (Some b') => best_cd_rank b = best_cd_rank b'
  | Ret None, Ret None => True
  | _, _ => False
  end.
Proof.
  intros Hslots Hslots' Hc Hc' Hperm.
  unfold superblob_slots in Hslots, Hslots'. rewrite Hc in Hslots. rewrite Hc' in Hslots'.
  cbn [obind] in Hslots, Hslots'.
  rewrite (cs_superblob_scan_select _ _ _ _ _ _ _ Hslots).
  rewrite (cs_superblob_scan_select _ _ _ _ _ _ _ Hslots').
  destruct (select slots no_best) as [b|] eqn:E; destruct (select slots' no_best) as [b'|] eqn:E'.
  - apply select_some in E, E'. subst b b'.
    apply Z.le_antisymm; apply fold_prefer_rank_le; intros s Hin.
    + apply (Permutation_in _ Hperm Hin).
    + apply (Permutation_in _ (Permutation_sym Hperm) Hin).
  - apply select_none_inv in E'.
    rewrite select_rejected in E; [discriminate|].
    destruct E' as [Hin|Hin]; [left | right];
      apply (Permutation_in _ (Permutation_sym Hperm) Hin).
  - apply select_none_inv in E.
    rewrite select_rejected in E'; [discriminate|].
    destruct E as [Hin|Hin]; [left | right]; apply (Permutation_in _ Hperm Hin).
  - exact I.
Qed.

Lemma cs_superblob_scan_order_independent_witness :
  match cs_superblob_scan (Z.to_nat 2)
          (blob_buffer (two_directories CS_HASHTYPE_SHA1 CS_HASHTYPE_SHA256))
          image_base 204 0 no_best,
        cs_superblob_scan (Z.to_nat 2)
          (blob_buffer (swapped_directories CS_HASHTYPE_SHA1 CS_HASHTYPE_SHA256))
          image_base 204 0 no_best with
  | Ret (Some b), Ret (Some b') => best_cd_rank b = best_cd_rank b'
  | Ret None, Ret None => True
  | _, _ => False
  end.
Proof.
  apply (cs_superblob_scan_order_independent
           (blob_buffer (two_directories CS_HASHTYPE_SHA1 CS_HASHTYPE_SHA256))
           (blob_buffer (swapped_directories CS_HASHTYPE_SHA1 CS_HASHTYPE_SHA256))
           image_base image_base 204 204 2 2
           [Candidate (image_base + 28) 88 CS_HASHTYPE_SHA1;
            Candidate (image_base + 116) 88 CS_HASHTYPE_SHA256]
           [Candidate (image_base + 116) 88 CS_HASHTYPE_SHA256;
            Candidate (image_base + 28) 88 CS_HASHTYPE_SHA1]).
  - by_computation.
  - by_computation.
  - by_computation.
  - by_computation.
  - apply perm_swap.
Defined.
